(** * Team inference for the snowball-fight log ([snowball_plot.py])

    A shallow embedding of [infer_teams] and of the statistics table that
    [main] builds from its result, followed by the properties of the
    inference engine and of the reporter; then of the rest of the script
    that computes: [normalize_user], the input checks and the seeding of
    [main], the highlight column, and [highlightUser] of the search box.

    Conventions of the embedding:
    - a participant is a [string] (a normalised user name);
    - the data frame is the list of its rows, in [iterrows] order; only the
      columns [Attacker] and [Victim] are read by the code modelled here;
    - [current_teams] is a finite map from users to teams ([gmap]);
    - [evidence] is a Python [dict], iterated in insertion order by
      [evidence.items()]: it is an association list with distinct keys,
      kept in insertion order;
    - the counters are Python integers that start at 0 and are only
      incremented: they are [nat];
    - the [while changed] loop is a fuelled recursion, one unit of fuel per
      pass; [infer_loop_enough_fuel] shows that the fuel given by
      [infer_teams] is never exhausted. *)

From stdpp Require Import gmap strings list fin_maps fin_sets.

Open Scope string_scope.
Open Scope nat_scope.
Open Scope list_scope.

(** ** Data model *)

(** The two team names, ["Reindeer"] and ["Penguin"]. *)
Inductive Team : Type := Reindeer | Penguin.

#[global] Instance Team_eq_dec : EqDecision Team.
Proof. solve_decision. Defined.

(** One row of the data frame. *)
Record Row : Type := mkRow { Attacker : string; Victim : string }.

(** The inner dictionary [{"Reindeer": r, "Penguin": p}] of [evidence]. *)
Record Counts : Type := mkCounts { nReindeer : nat; nPenguin : nat }.

#[global] Instance Counts_eq_dec : EqDecision Counts.
Proof. solve_decision. Defined.

#[global] Instance Row_eq_dec : EqDecision Row.
Proof. solve_decision. Defined.

Abbreviation Teams := (gmap string Team).
Abbreviation Evidence := (list (string * Counts)).

(** ** Evidence dictionary *)

(** [evidence.get(u)]: the entry of [u], if any. *)
Fixpoint ev_lookup (u : string) (ev : Evidence) : option Counts :=
  match ev with
  | [] => None
  | (k, c) :: ev' => if decide (k = u) then Some c else ev_lookup u ev'
  end.

(** [evidence.setdefault(u, d)]: a new key goes to the end, an old one
    keeps its entry and its place. *)
Fixpoint setdefault (u : string) (d : Counts) (ev : Evidence) : Evidence :=
  match ev with
  | [] => [(u, d)]
  | (k, c) :: ev' =>
      if decide (k = u) then (k, c) :: ev' else (k, c) :: setdefault u d ev'
  end.

(** [counts[target] += 1] *)
Definition bump (target : Team) (c : Counts) : Counts :=
  match target with
  | Reindeer => mkCounts (S (nReindeer c)) (nPenguin c)
  | Penguin => mkCounts (nReindeer c) (S (nPenguin c))
  end.

(** [evidence[u][target] += 1]. The source only runs it right after
    [setdefault], so the key is present; on a missing key (a [KeyError] in
    Python) the list is left as it is. *)
Fixpoint increment (u : string) (target : Team) (ev : Evidence) : Evidence :=
  match ev with
  | [] => []
  | (k, c) :: ev' =>
      if decide (k = u) then (k, bump target c) :: ev'
      else (k, c) :: increment u target ev'
  end.

(** ** [infer_teams] *)

(** ["Penguin" if team == "Reindeer" else "Reindeer"] *)
Definition opposite (team : Team) : Team :=
  match team with
  | Reindeer => Penguin
  | Penguin => Reindeer
  end.

(** The two lines
    [evidence.setdefault(u, {"Reindeer": 0, "Penguin": 0})] and
    [evidence[u][target] += 1]. *)
Definition add_vote (u : string) (target : Team) (ev : Evidence) : Evidence :=
  increment u target (setdefault u (mkCounts 0 0) ev).

(** Body of the loop over [df.iterrows()]: the two [if]s, in order. The
    label state [current_teams] is only read. *)
Definition scan_row (current_teams : Teams) (evidence : Evidence) (row : Row)
  : Evidence :=
  let att := Attacker row in
  let vic := Victim row in
  let evidence :=
    match current_teams !! att, current_teams !! vic with
    | Some att_team, None => add_vote vic (opposite att_team) evidence
    | _, _ => evidence
    end in
  match current_teams !! vic, current_teams !! att with
  | Some vic_team, None => add_vote att (opposite vic_team) evidence
  | _, _ => evidence
  end.

(** The evidence built by one sweep over the rows, from [evidence = {}]. *)
Definition collect (current_teams : Teams) (df : list Row) : Evidence :=
  fold_left (scan_row current_teams) df [].

(** The branch of the [if]/[elif] chain that a pair of counts takes. *)
Inductive Branch : Type :=
| DominantReindeer     (* r > p * 2 and r > 0 *)
| DominantPenguin      (* p > r * 2 and p > 0 *)
| OneSidedReindeer     (* r > 0 and p == 0 *)
| OneSidedPenguin      (* p > 0 and r == 0 *)
| NoBranch.            (* none of them: nothing is assigned *)

#[global] Instance Branch_eq_dec : EqDecision Branch.
Proof. solve_decision. Defined.

Definition commit_branch (r p : nat) : Branch :=
  if ((p * 2 <? r) && (0 <? r))%nat then DominantReindeer
  else if ((r * 2 <? p) && (0 <? p))%nat then DominantPenguin
  else if ((0 <? r) && (p =? 0))%nat then OneSidedReindeer
  else if ((0 <? p) && (r =? 0))%nat then OneSidedPenguin
  else NoBranch.

(** The team each branch assigns. *)
Definition branch_team (b : Branch) : option Team :=
  match b with
  | DominantReindeer | OneSidedReindeer => Some Reindeer
  | DominantPenguin | OneSidedPenguin => Some Penguin
  | NoBranch => None
  end.

Definition commit_rule (counts : Counts) : option Team :=
  branch_team (commit_branch (nReindeer counts) (nPenguin counts)).

(** Body of the loop over [evidence.items()], on the pair
    [(current_teams, changed)]. *)
Definition commit_user (st : Teams * bool) (item : string * Counts)
  : Teams * bool :=
  let '(user, counts) := item in
  match st.1 !! user with
  | Some _ => st                                   (* continue *)
  | None =>
      match commit_rule counts with
      | Some team => (<[user := team]> st.1, true)
      | None => st
      end
  end.

(** The loop over [evidence.items()], entered with [changed = False]. *)
Definition commit (evidence : Evidence) (current_teams : Teams)
  : Teams * bool :=
  fold_left commit_user evidence (current_teams, false).

(** One iteration of [while changed]: the label state after it and the
    value of [changed]. *)
Definition pass (df : list Row) (current_teams : Teams) : Teams * bool :=
  commit (collect current_teams df) current_teams.

(** [while changed], with one unit of fuel per iteration. *)
Fixpoint infer_loop (fuel : nat) (df : list Row) (current_teams : Teams)
  : option Teams :=
  match fuel with
  | O => None
  | S fuel' =>
      let '(teams', changed) := pass df current_teams in
      if changed then infer_loop fuel' df teams' else Some teams'
  end.

(** The users of the data frame, as attacker or as victim. *)
Definition participants (df : list Row) : gset string :=
  list_to_set (df ≫= λ row, [Attacker row; Victim row]).

Definition infer_teams (df : list Row) (current_teams : Teams)
  : option Teams :=
  infer_loop (S (size (participants df))) df current_teams.

(** The label state after [n] iterations of the loop body. *)
Definition after_passes (df : list Row) (n : nat) (seed : Teams) : Teams :=
  Nat.iter n (λ teams, (pass df teams).1) seed.

(** ** The statistics table of [main] *)

(** [Series.value_counts()]: one entry per distinct value of the column,
    with the number of its occurrences. pandas lists the entries by
    decreasing count; that order is not modelled (the entries come in the
    order of [remove_dups]) and nothing below depends on it. *)
Definition value_counts (col : list string) : list (string * nat) :=
  (λ u, (u, length (filter (λ x, x = u) col))) <$> remove_dups col.

(** The value a series holds at an index, if any. *)
Fixpoint series_get (s : list (string * nat)) (u : string) : option nat :=
  match s with
  | [] => None
  | (k, n) :: s' => if decide (k = u) then Some n else series_get s' u
  end.

(** One row of [stats_df]; [None] in the last column is ["Unknown"]. *)
Record StatRow : Type := mkStat {
  User : string;
  AttacksMade : nat;
  AttacksReceived : nat;
  TeamLabel : option Team
}.

#[global] Instance StatRow_eq_dec : EqDecision StatRow.
Proof. solve_decision. Defined.

(** [pd.concat([a, b], axis=1).fillna(0).reset_index()]: the outer join of
    the two series on their index, a missing count read as 0. *)
Definition concat_fillna (a b : list (string * nat))
  : list (string * nat * nat) :=
  (λ u, (u, default 0 (series_get a u), default 0 (series_get b u)))
    <$> remove_dups (a.*1 ++ b.*1).

(** Lines 115-123 of [main]: the two counts per user, the team column
    [solid_teams.get(u, "Unknown")], and the rows whose team is known. *)
Definition build_stats (df : list Row) (solid_teams : Teams) : list StatRow :=
  let attacks_made := value_counts (Attacker <$> df) in
  let attacks_received := value_counts (Victim <$> df) in
  let stats_df := concat_fillna attacks_made attacks_received in
  let stats_df :=
    (λ '(u, made, received), mkStat u made received (solid_teams !! u))
      <$> stats_df in
  filter (λ s, TeamLabel s ≠ None) stats_df.

(** [main], from the seeded teams to the filtered table. *)
Definition main_stats (df : list Row) (user_teams : Teams)
  : option (list StatRow) :=
  solid_teams ← infer_teams df user_teams;
  Some (build_stats df solid_teams).

(** ** The variant of [infer_teams] without the one-sided branches *)

Module DominanceOnly.

Definition commit_branch (r p : nat) : Branch :=
  if ((p * 2 <? r) && (0 <? r))%nat then DominantReindeer
  else if ((r * 2 <? p) && (0 <? p))%nat then DominantPenguin
  else NoBranch.

Definition commit_rule (counts : Counts) : option Team :=
  branch_team (commit_branch (nReindeer counts) (nPenguin counts)).

Definition commit_user (st : Teams * bool) (item : string * Counts)
  : Teams * bool :=
  let '(user, counts) := item in
  match st.1 !! user with
  | Some _ => st
  | None =>
      match commit_rule counts with
      | Some team => (<[user := team]> st.1, true)
      | None => st
      end
  end.

Definition commit (evidence : Evidence) (current_teams : Teams)
  : Teams * bool :=
  fold_left commit_user evidence (current_teams, false).

Definition pass (df : list Row) (current_teams : Teams) : Teams * bool :=
  commit (collect current_teams df) current_teams.

Fixpoint infer_loop (fuel : nat) (df : list Row) (current_teams : Teams)
  : option Teams :=
  match fuel with
  | O => None
  | S fuel' =>
      let '(teams', changed) := pass df current_teams in
      if changed then infer_loop fuel' df teams' else Some teams'
  end.

Definition infer_teams (df : list Row) (current_teams : Teams)
  : option Teams :=
  infer_loop (S (size (participants df))) df current_teams.

End DominanceOnly.

(** ** Notions of the specification *)

(** The vote a row casts under a label state: when exactly one endpoint is
    labelled, one vote for the other endpoint, toward the team opposite to
    the labelled one; no vote when both or neither are labelled. *)
Definition vote_of (teams : Teams) (row : Row) : option (string * Team) :=
  match teams !! Attacker row, teams !! Victim row with
  | Some team, None => Some (Victim row, opposite team)
  | None, Some team => Some (Attacker row, opposite team)
  | _, _ => None
  end.

(** Number of rows that vote for [u] toward [team]. *)
Definition votes (teams : Teams) (df : list Row) (u : string) (team : Team)
  : nat :=
  length (filter (λ row, vote_of teams row = Some (u, team)) df).

(** The tally of [u]: absent when no row votes for [u]. *)
Definition tally (teams : Teams) (df : list Row) (u : string)
  : option Counts :=
  let r := votes teams df u Reindeer in
  let p := votes teams df u Penguin in
  if decide (r + p = 0) then None else Some (mkCounts r p).

(** Number of rows with exactly one labelled endpoint, labelled with
    [team], whose other endpoint is [u]; every such row counts, repeated
    rows as often as they occur. *)
Definition votes_from (teams : Teams) (df : list Row) (u : string)
    (team : Team) : nat :=
  length (filter (λ row,
    (teams !! Attacker row = Some team ∧ teams !! Victim row = None ∧
     Victim row = u) ∨
    (teams !! Victim row = Some team ∧ teams !! Attacker row = None ∧
     Attacker row = u)) df).

(** All commits of a pass at once: every unlabelled user of the tally whose
    counts match a rule gets its team, whatever the order of the tally. *)
Definition commit_simultaneously (evidence : Evidence) (teams : Teams)
  : Teams * bool :=
  let tallies : gmap string Counts := list_to_map evidence in
  let new_labels : Teams :=
    omap commit_rule (filter (λ kv, teams !! kv.1 = None) tallies) in
  (teams ∪ new_labels, bool_decide (new_labels ≠ ∅)).



(** Number of rows with [u] as attacker, and as victim. *)
Definition outgoing (df : list Row) (u : string) : nat :=
  length (filter (λ row, Attacker row = u) df).

Definition incoming (df : list Row) (u : string) : nat :=
  length (filter (λ row, Victim row = u) df).

(** The users of the data frame that have no label. *)
Definition unlabelled (df : list Row) (teams : Teams) : gset string :=
  participants df ∖ dom teams.

(** ** Configuration, seeding and input checks of [main] *)

(** The two sets of known users and the user to highlight. *)
Definition known_reindeer : gset string := {["bsims"; "SammyxxFairy"]}.
Definition known_penguin : gset string :=
  {["VMKNeec"; "Luckymaxer"; "Winnie"; "BuckyBarnes"]}.
Definition HIGHLIGHT_USER : option string := Some "Winnie".

(** [d.update(other)]: the entries of [other] replace those of [d]. *)
Definition dict_update (d other : Teams) : Teams := other ∪ d.

(** The seed of [main]: [{u: "Reindeer" for u in reindeer}], updated with
    [{u: "Penguin" for u in penguin}]. *)
Definition seed_teams (reindeer penguin : gset string) : Teams :=
  let user_teams := gset_to_gmap Reindeer reindeer in
  dict_update user_teams (gset_to_gmap Penguin penguin).

Definition required_cols : gset string := {["Attacker"; "Victim"; "Time"]}.

(** The exceptions [main] raises before it reads a row. *)
Inductive MainError : Type :=
| FileNotFoundError
| ValueError (missing : gset string).

(** The checks at the start of [main]: the file is there, and the sheet has
    the required columns ([required_cols - set(df.columns)] is empty).
    [None] when both pass. *)
Definition check_input (file_exists : bool) (columns : list string)
  : option MainError :=
  if negb file_exists then Some FileNotFoundError
  else
    let missing := required_cols ∖ list_to_set columns in
    if decide (missing ≠ ∅) then Some (ValueError missing) else None.

(** ** [normalize_user] *)

(** [str.isspace] on one character. A string is read as the sequence of its
    characters, each with a code below 256; there the whitespace characters
    of Python are 9-13, 28-32, 133 and 160. *)
Definition isspace (c : Ascii.ascii) : bool :=
  let n := Ascii.nat_of_ascii c in
  ((9 <=? n) && (n <=? 13)) || ((28 <=? n) && (n <=? 32)) ||
  (n =? 133) || (n =? 160).

(** Cutting off the characters of a class [sp] at the left end, at the
    right end and at both ends of a string. *)
Fixpoint lstrip_by (sp : Ascii.ascii → bool) (s : string) : string :=
  match s with
  | EmptyString => EmptyString
  | String c s' => if sp c then lstrip_by sp s' else s
  end.

Fixpoint rstrip_by (sp : Ascii.ascii → bool) (s : string) : string :=
  match s with
  | EmptyString => EmptyString
  | String c s' =>
      match rstrip_by sp s' with
      | EmptyString => if sp c then EmptyString else String c EmptyString
      | t => String c t
      end
  end.

Definition strip_by (sp : Ascii.ascii → bool) (s : string) : string :=
  rstrip_by sp (lstrip_by sp s).

(** [str.lstrip()], [str.rstrip()] and [str.strip()] *)
Definition lstrip (s : string) : string := lstrip_by isspace s.
Definition rstrip (s : string) : string := rstrip_by isspace s.
Definition strip (s : string) : string := rstrip (lstrip s).

(** [normalize_user], on a name or a missing value ([None], for which
    [pd.isna] holds). *)
Definition normalize_user (x : option string) : option string :=
  match x with
  | None => None
  | Some s => Some (strip s)
  end.

(** Lines 103-104 of [main], on rows whose two names are present. *)
Definition normalize_rows (df : list Row) : list Row :=
  (λ row, mkRow (strip (Attacker row)) (strip (Victim row))) <$> df.

(** Every character of the string is in the class [sp]; is whitespace. *)
Fixpoint all_by (sp : Ascii.ascii → bool) (s : string) : bool :=
  match s with
  | EmptyString => true
  | String c s' => sp c && all_by sp s'
  end.

Definition all_space (s : string) : bool := all_by isspace s.

(** ** The highlight column *)

(** [pat in s], the test of [Series.str.contains(pat, regex=False)]. *)
Fixpoint contains (pat s : string) : bool :=
  String.prefix pat s ||
  match s with
  | EmptyString => false
  | String _ s' => contains pat s'
  end.

(** The column [Highlight]: [str.contains] when [HIGHLIGHT_USER] is truthy
    (neither [None] nor the empty string), [False] otherwise. *)
Definition highlight_column (highlight_user : option string)
    (users : list string) : list bool :=
  match highlight_user with
  | Some pat =>
      if decide (pat = "") then (λ _, false) <$> users
      else contains pat <$> users
  | None => (λ _, false) <$> users
  end.

(** ** The search box: [highlightUser] *)

(** A trace of the figure: its [mode] and its [hovertext] (the names of its
    points), either of which may be undefined. *)
Record Trace : Type := mkTrace {
  mode : option string;
  hovertext : option (list string)
}.

(** [toLowerCase] on one character with a code below 256: the letters A-Z
    and the capital letters 192-222, the multiplication sign 215 apart,
    move up by 32. *)
Definition js_lower_char (c : Ascii.ascii) : Ascii.ascii :=
  let n := Ascii.nat_of_ascii c in
  if ((65 <=? n) && (n <=? 90)) ||
     ((192 <=? n) && (n <=? 222) && negb (n =? 215))
  then Ascii.ascii_of_nat (n + 32) else c.

(** [String.prototype.toLowerCase] *)
Fixpoint toLowerCase (s : string) : string :=
  match s with
  | EmptyString => EmptyString
  | String c s' => String (js_lower_char c) (toLowerCase s')
  end.

(** The white space and line terminators of JavaScript with a code below
    256: 9-13, 32 and 160. *)
Definition js_isspace (c : Ascii.ascii) : bool :=
  let n := Ascii.nat_of_ascii c in
  ((9 <=? n) && (n <=? 13)) || (n =? 32) || (n =? 160).

(** [String.prototype.trim] *)
Definition trim (s : string) : string := strip_by js_isspace s.

(** The numbers 1 and 0.2 of the opacities. *)
Definition opacity_full : QArith_base.Q := QArith_base.Qmake 1 1.
Definition opacity_dim : QArith_base.Q := QArith_base.Qmake 1 5.

(** Body of the inner loop: size and opacity of one point. *)
Definition point_marker (searchTerm username : string)
  : nat * QArith_base.Q :=
  if decide (searchTerm = "") then (8, opacity_full)
  else if contains searchTerm username then (20, opacity_full)
  else (8, opacity_dim).

(** Body of the loop over [gd.data]: [None] for a trace that is skipped
    ([null] in [updateSizes], [undefined] in the update). *)
Definition trace_markers (searchTerm : string) (trace : Trace)
  : option (list nat * list QArith_base.Q) :=
  if decide (mode trace = Some "lines") then None
  else
    match hovertext trace with
    | None => None
    | Some hoverTexts =>
        let markers :=
          (λ h, point_marker searchTerm (toLowerCase h)) <$> hoverTexts in
        Some (markers.*1, markers.*2)
    end.

(** [highlightUser], on [gd.data] ([None] when there is no graph or no
    data: the function returns without a restyle). The result is the update
    handed to [Plotly.restyle]: [marker.size] and [marker.opacity], one
    entry per trace. *)
Definition highlightUser (gd_data : option (list Trace)) (searchTerm : string)
  : option (list (option (list nat)) *
            list (option (list QArith_base.Q))) :=
  match gd_data with
  | None => None
  | Some data =>
      let searchTerm := trim (toLowerCase searchTerm) in
      let updates := trace_markers searchTerm <$> data in
      Some (fmap fst <$> updates, fmap snd <$> updates)
  end.

(** The trace with the names of its points lower-cased. *)
Definition lower_names (trace : Trace) : Trace :=
  mkTrace (mode trace)
    (match hovertext trace with
     | Some names => Some (toLowerCase <$> names)
     | None => None
     end).

(** ** [main], from the rows of the sheet to the filtered table *)

(** Lines 103-123 of [main] on the rows of a sheet that passed the checks,
    with every name present and every time readable by [pd.to_datetime]
    (which raises otherwise; the Time column is not used after that): the
    names are normalized, the teams seeded from the two known sets and
    inferred, and the table built. *)
Definition main_table (df : list Row) : option (list StatRow) :=
  let df := normalize_rows df in
  let user_teams := seed_teams known_reindeer known_penguin in
  main_stats df user_teams.

(** ** Further notions *)

(** The users joined to a seeded user by a chain of rows, in either
    direction. *)
Inductive connected (df : list Row) (seed : Teams) : string → Prop :=
| connected_seed u :
    is_Some (seed !! u) → connected df seed u
| connected_attacker row :
    row ∈ df → connected df seed (Victim row) →
    connected df seed (Attacker row)
| connected_victim row :
    row ∈ df → connected df seed (Attacker row) →
    connected df seed (Victim row).

(** The sum of all the counters of a dictionary. *)
Definition total_votes (ev : Evidence) : nat :=
  sum_list_with (λ kc, nReindeer kc.2 + nPenguin kc.2) ev.

(** Exactly one endpoint of the row has a team. *)
Definition one_labelled (teams : Teams) (row : Row) : bool :=
  xorb (bool_decide (is_Some (teams !! Attacker row)))
       (bool_decide (is_Some (teams !! Victim row))).

(** The label state gives no user a team other than its team in [truth]. *)
Definition agrees (truth : string → Team) (teams : Teams) : Prop :=
  ∀ u team, teams !! u = Some team → truth u = team.

(** The inner dictionary with its two counters exchanged. *)
Definition swap_counts (c : Counts) : Counts :=
  mkCounts (nPenguin c) (nReindeer c).

(** ** Example data *)

(** Two seeds and a user attacked by one and attacking the other, twice. *)
Definition ex_seed : Teams := <["X" := Reindeer]> (<["Y" := Penguin]> ∅).
Definition ex_df : list Row :=
  [mkRow "X" "Z"; mkRow "Z" "Y"; mkRow "X" "Z"; mkRow "Z" "Y"].

(** A seeded attacker, and a seeded user that is in no row. *)
Definition ex_stats_df : list Row :=
  [mkRow "A" "B"; mkRow "A" "C"; mkRow "B" "A"].
Definition ex_stats_seed : Teams := <["A" := Reindeer]> (<["Q" := Penguin]> ∅).

(** A user hit once by each team, and a seeded user that is in no row. *)
Definition ex_tie_df : list Row := [mkRow "X" "W"; mkRow "Y" "W"].
Definition ex_tie_seed : Teams :=
  <["X" := Reindeer]> (<["Y" := Penguin]> (<["Q" := Penguin]> ∅)).

(** A user hit seven times by a penguin and three times by a reindeer. *)
Definition ex_dominant_df : list Row :=
  replicate 7 (mkRow "P" "Z") ++ replicate 3 (mkRow "R" "Z").
Definition ex_dominant_seed : Teams :=
  <["P" := Penguin]> (<["R" := Reindeer]> ∅).

(** A chain of two rows from one seed; every row crosses the teams of
    [ex_chain_truth]. *)
Definition ex_chain_df : list Row := [mkRow "X" "Z"; mkRow "W" "Z"].
Definition ex_chain_seed : Teams := <["X" := Reindeer]> ∅.
Definition ex_chain_truth (u : string) : Team :=
  if decide (u = "Z") then Penguin else Reindeer.

(** Rows whose endpoints are both seeded or both without a team. *)
Definition ex_still_df : list Row := [mkRow "X" "Y"; mkRow "U" "V"].

(** A figure with one trace of points and one trend line. *)
Definition ex_figure : list Trace :=
  [mkTrace (Some "markers") (Some ["Winnie"; "bsims"]);
   mkTrace (Some "lines") None].

(** ** Examples *)

Example ex_collect :
  collect ex_seed ex_df = [("Z", mkCounts 2 2)].
Proof. vm_compute. reflexivity. Qed.

Example ex_tally : tally ex_seed ex_df "Z" = Some (mkCounts 2 2).
Proof. vm_compute. reflexivity. Qed.

Example ex_pass : pass ex_df ex_seed = (ex_seed, false).
Proof. vm_compute. reflexivity. Qed.

Example ex_infer : infer_teams ex_df ex_seed = Some ex_seed.
Proof. vm_compute. reflexivity. Qed.

(** Three rows from a reindeer: the victim is a penguin after one pass. *)
Example ex_one_sided :
  infer_teams (replicate 3 (mkRow "X" "Z")) (<["X" := Reindeer]> ∅)
  = Some (<["Z" := Penguin]> (<["X" := Reindeer]> ∅)).
Proof. vm_compute. reflexivity. Qed.

Example ex_dominant_collect :
  collect ex_dominant_seed ex_dominant_df = [("Z", mkCounts 7 3)].
Proof. vm_compute. reflexivity. Qed.

Example ex_main_stats :
  main_stats ex_stats_df ex_stats_seed =
  Some [mkStat "B" 1 1 (Some Penguin); mkStat "C" 0 1 (Some Penguin);
        mkStat "A" 2 1 (Some Reindeer)].
Proof. vm_compute. reflexivity. Qed.

Example ex_tie_stats :
  main_stats ex_tie_df ex_tie_seed =
  Some [mkStat "X" 1 0 (Some Reindeer); mkStat "Y" 1 0 (Some Penguin)].
Proof. vm_compute. reflexivity. Qed.

Example ex_simultaneous :
  commit_simultaneously (collect ex_stats_seed ex_stats_df) ex_stats_seed
  = pass ex_stats_df ex_stats_seed.
Proof. vm_compute. reflexivity. Qed.

(** ** The evidence dictionary *)

Section evidence_dict.
Implicit Types (ev : Evidence) (u k : string) (c d : Counts) (t : Team).

Lemma ev_lookup_None ev u : ev_lookup u ev = None ↔ u ∉ ev.*1.
Proof.
  induction ev as [|[k c] ev IH].
  - split; [intros _; apply not_elem_of_nil | done].
  - rewrite fmap_cons, not_elem_of_cons. cbn. case_decide; subst.
    + split; [done | intros [? _]; done].
    + rewrite IH. split; [by intros ? | by intros [_ ?]].
Qed.

Lemma ev_lookup_list_to_map ev u :
  (list_to_map ev : gmap string Counts) !! u = ev_lookup u ev.
Proof.
  induction ev as [|[k c] ev IH]; simpl; [apply lookup_empty|].
  rewrite lookup_insert. case_decide; [done | apply IH].
Qed.

Lemma ev_lookup_setdefault_eq u d ev :
  ev_lookup u (setdefault u d ev) = Some (default d (ev_lookup u ev)).
Proof.
  induction ev as [|[k c] ev IH]; simpl.
  - by rewrite decide_True.
  - case_decide; simpl; [by rewrite decide_True | by rewrite decide_False].
Qed.

Lemma ev_lookup_setdefault_ne u k d ev :
  k ≠ u → ev_lookup k (setdefault u d ev) = ev_lookup k ev.
Proof.
  intros Hne. induction ev as [|[k' c] ev IH]; simpl.
  - by rewrite decide_False.
  - case_decide; simpl; [done|]. by rewrite IH.
Qed.

Lemma ev_lookup_increment_eq u t ev :
  ev_lookup u (increment u t ev) = bump t <$> ev_lookup u ev.
Proof.
  induction ev as [|[k c] ev IH]; simpl; [done|].
  case_decide; simpl; [by rewrite decide_True | by rewrite decide_False].
Qed.

Lemma ev_lookup_increment_ne u k t ev :
  k ≠ u → ev_lookup k (increment u t ev) = ev_lookup k ev.
Proof.
  intros Hne. induction ev as [|[k' c] ev IH]; simpl; [done|].
  case_decide; simpl; subst.
  - by rewrite !decide_False.
  - by rewrite IH.
Qed.

(** A vote adds one to the counter of its target, from 0 for a new key. *)
Lemma ev_lookup_add_vote_eq u t ev :
  ev_lookup u (add_vote u t ev)
  = Some (bump t (default (mkCounts 0 0) (ev_lookup u ev))).
Proof.
  unfold add_vote.
  by rewrite ev_lookup_increment_eq, ev_lookup_setdefault_eq.
Qed.

Lemma ev_lookup_add_vote_ne u k t ev :
  k ≠ u → ev_lookup k (add_vote u t ev) = ev_lookup k ev.
Proof.
  intros Hne. unfold add_vote.
  by rewrite ev_lookup_increment_ne, ev_lookup_setdefault_ne.
Qed.

Lemma keys_increment u t ev : (increment u t ev).*1 = ev.*1.
Proof.
  induction ev as [|[k c] ev IH]; [done|].
  cbn [increment]. case_decide; rewrite !fmap_cons; [done | by rewrite IH].
Qed.

Lemma keys_setdefault u d ev :
  (setdefault u d ev).*1 = if decide (u ∈ ev.*1) then ev.*1 else ev.*1 ++ [u].
Proof.
  induction ev as [|[k c] ev IH].
  - cbn. rewrite decide_False; [done | apply not_elem_of_nil].
  - cbn [setdefault].
    destruct (decide (k = u)) as [->|Hku]; rewrite !fmap_cons; cbn [fst].
    + rewrite decide_True; [done | apply list_elem_of_here].
    + rewrite IH. destruct (decide (u ∈ ev.*1)) as [Hin|Hnin].
      * rewrite decide_True; [done | by apply list_elem_of_further].
      * rewrite decide_False; [done|].
        rewrite not_elem_of_cons. by split; [intros ->|].
Qed.

Lemma keys_add_vote u t ev :
  (add_vote u t ev).*1 = if decide (u ∈ ev.*1) then ev.*1 else ev.*1 ++ [u].
Proof. unfold add_vote. by rewrite keys_increment, keys_setdefault. Qed.

(** The keys of a dictionary stay distinct. *)
Lemma NoDup_add_vote u t ev : NoDup ev.*1 → NoDup (add_vote u t ev).*1.
Proof.
  intros Hnd. rewrite keys_add_vote. case_decide; [done|].
  apply NoDup_app. split_and!; [done | | apply NoDup_singleton].
  intros x Hx ->%list_elem_of_singleton. done.
Qed.

End evidence_dict.

(** ** Evidence collection *)

Section collection.
Implicit Types (teams : Teams) (df : list Row) (row : Row) (u : string).

Lemma collect_snoc teams df row :
  collect teams (df ++ [row]) = scan_row teams (collect teams df) row.
Proof. unfold collect. by rewrite fold_left_app. Qed.

(** The two [if]s of the loop body cast the vote of the row, if it has one:
    they never fire both. *)
Lemma scan_row_vote teams ev row :
  scan_row teams ev row =
  match vote_of teams row with
  | Some (u, team) => add_vote u team ev
  | None => ev
  end.
Proof.
  unfold scan_row, vote_of.
  destruct (teams !! Attacker row), (teams !! Victim row); done.
Qed.

Lemma vote_of_Some teams row u team :
  vote_of teams row = Some (u, team) →
  teams !! u = None ∧ (u = Attacker row ∨ u = Victim row) ∧
  Attacker row ≠ Victim row.
Proof.
  unfold vote_of.
  destruct (teams !! Attacker row) eqn:Ha, (teams !! Victim row) eqn:Hv;
    intros [= <- <-]; split_and!; auto; congruence.
Qed.

Lemma votes_snoc teams df row u team :
  votes teams (df ++ [row]) u team =
  votes teams df u team +
  (if decide (vote_of teams row = Some (u, team)) then 1 else 0).
Proof.
  unfold votes. rewrite filter_app, length_app. f_equal.
  rewrite filter_cons, filter_nil. by case_decide.
Qed.

Lemma votes_pos teams df u team :
  0 < votes teams df u team →
  ∃ row, row ∈ df ∧ vote_of teams row = Some (u, team).
Proof.
  unfold votes. intros Hpos.
  destruct (filter _ df) as [|row l] eqn:Hf; [simpl in Hpos; lia|].
  assert (row ∈ filter (λ row, vote_of teams row = Some (u, team)) df) as Hin
    by (rewrite Hf; apply list_elem_of_here).
  apply list_elem_of_filter in Hin as [? ?]. by exists row.
Qed.

Lemma elem_of_participants df u :
  u ∈ participants df ↔ ∃ row, row ∈ df ∧ (u = Attacker row ∨ u = Victim row).
Proof.
  unfold participants. rewrite elem_of_list_to_set, list_elem_of_bind.
  split; intros (row & H1 & H2); exists row.
  - rewrite !elem_of_cons in H1. split; [done|].
    destruct H1 as [?|[?|?%elem_of_nil]]; auto; done.
  - split; [|tauto]. rewrite !elem_of_cons. tauto.
Qed.

(** Only unlabelled users of the data frame get a tally. *)
Lemma tally_Some teams df u c :
  tally teams df u = Some c →
  teams !! u = None ∧ u ∈ participants df ∧ 0 < nReindeer c + nPenguin c.
Proof.
  unfold tally. case_decide as Hz; [done|]. intros [= <-]. simpl.
  assert (∃ team, 0 < votes teams df u team) as [team Hpos].
  { destruct (votes teams df u Reindeer) eqn:Hr.
    - exists Penguin. lia.
    - exists Reindeer. lia. }
  apply votes_pos in Hpos as (row & Hin & Hv).
  apply vote_of_Some in Hv as (Hu & Hor & _).
  split_and!; [done | | lia].
  apply elem_of_participants. eauto.
Qed.

(** The dictionary built by the sweep holds, for each user, its tally. *)
Lemma ev_lookup_collect teams df u :
  ev_lookup u (collect teams df) = tally teams df u.
Proof.
  induction df as [|row df IH] using rev_ind; [done|].
  rewrite collect_snoc, scan_row_vote. unfold tally in *.
  rewrite !votes_snoc.
  destruct (vote_of teams row) as [[k team]|] eqn:Hv.
  - destruct (decide (k = u)) as [->|Hne].
    + rewrite ev_lookup_add_vote_eq, IH.
      destruct team; repeat case_decide; simplify_eq/=; try lia;
        do 2 f_equal; lia.
    + rewrite ev_lookup_add_vote_ne, IH by done.
      repeat case_decide; simplify_eq/=; try lia; do 2 f_equal; lia.
  - rewrite IH.
    repeat case_decide; simplify_eq/=; try lia; do 2 f_equal; lia.
Qed.

Lemma NoDup_collect teams df : NoDup (collect teams df).*1.
Proof.
  induction df as [|row df IH] using rev_ind; [apply NoDup_nil_2|].
  rewrite collect_snoc, scan_row_vote.
  destruct (vote_of teams row) as [[k team]|]; [by apply NoDup_add_vote|done].
Qed.

(** The keys of the dictionary are unlabelled users: the [continue] of the
    commit loop is never taken on it. *)
Lemma collect_keys teams df u :
  u ∈ (collect teams df).*1 → teams !! u = None ∧ u ∈ participants df.
Proof.
  intros Hin. destruct (ev_lookup u (collect teams df)) as [c|] eqn:Hl.
  - rewrite ev_lookup_collect in Hl. apply tally_Some in Hl. tauto.
  - apply ev_lookup_None in Hl. done.
Qed.
End collection.

(** ** The commit loop *)

Section commit_loop.
Implicit Types (teams : Teams) (ev : Evidence) (st : Teams * bool).
Implicit Types (df : list Row) (u : string).

Lemma commit_user_mono st item : st.1 ⊆ (commit_user st item).1.
Proof.
  destruct item as [user counts]. unfold commit_user.
  destruct (st.1 !! user) eqn:Hu; [done|].
  destruct (commit_rule counts); [|done].
  by apply insert_subseteq.
Qed.

Lemma fold_commit_mono ev st : st.1 ⊆ (fold_left commit_user ev st).1.
Proof.
  revert st. induction ev as [|item ev IH]; intros st; [done|].
  simpl. etrans; [apply commit_user_mono | apply IH].
Qed.

(** Labels only grow in the commit loop. *)
Lemma commit_mono ev teams : teams ⊆ (commit ev teams).1.
Proof. apply (fold_commit_mono ev (teams, false)). Qed.

(** What the loop leaves at each user, for a dictionary (distinct keys). *)
Lemma fold_commit_lookup ev st u :
  NoDup ev.*1 →
  (fold_left commit_user ev st).1 !! u =
  match st.1 !! u with
  | Some team => Some team
  | None => ev_lookup u ev ≫= commit_rule
  end.
Proof.
  revert st. induction ev as [|[k c] ev IH]; intros st Hnd.
  { simpl. by destruct (st.1 !! u). }
  rewrite fmap_cons in Hnd. apply NoDup_cons in Hnd as [Hk Hnd].
  cbn [fst] in Hk. cbn [fold_left]. rewrite IH by done. cbn [commit_user ev_lookup].
  destruct (decide (k = u)) as [->|Hne].
  - apply ev_lookup_None in Hk. rewrite Hk. simpl.
    destruct (st.1 !! u) eqn:Hu; [by rewrite Hu|].
    destruct (commit_rule c) eqn:Hc; simpl.
    + by rewrite lookup_insert_eq.
    + by rewrite Hu.
  - destruct (st.1 !! k) eqn:Hsk; [done|].
    destruct (commit_rule c); [|done].
    simpl. by rewrite lookup_insert_ne.
Qed.

(** [changed] is raised exactly when a label is added. *)
Lemma fold_commit_changed ev st :
  (fold_left commit_user ev st).2 =
  st.2 || bool_decide ((fold_left commit_user ev st).1 ≠ st.1).
Proof.
  revert st. induction ev as [|[k c] ev IH]; intros st.
  { simpl. rewrite bool_decide_eq_false_2 by (by intros ?).
    by rewrite orb_false_r. }
  cbn [fold_left]. rewrite IH. cbn [commit_user].
  destruct (st.1 !! k) eqn:Hsk; [done|].
  destruct (commit_rule c) as [team|] eqn:Hc; [|done].
  cbn [snd fst]. rewrite orb_true_l. symmetry.
  rewrite (bool_decide_eq_true_2 (_ ≠ st.1)); [apply orb_true_r|].
  intros Heq.
  pose proof (fold_commit_mono ev (<[k:=team]> st.1, true)) as Hsub.
  rewrite Heq in Hsub. cbn [fst] in Hsub.
  eapply lookup_weaken in Hsub; [|apply lookup_insert_eq]. congruence.
Qed.

Lemma commit_changed ev teams :
  (commit ev teams).2 = bool_decide ((commit ev teams).1 ≠ teams).
Proof. apply (fold_commit_changed ev (teams, false)). Qed.

Lemma commit_lookup ev teams u :
  NoDup ev.*1 →
  (commit ev teams).1 !! u =
  match teams !! u with
  | Some team => Some team
  | None => ev_lookup u ev ≫= commit_rule
  end.
Proof. apply (fold_commit_lookup ev (teams, false)). Qed.

Lemma simultaneous_lookup ev teams u :
  (commit_simultaneously ev teams).1 !! u =
  match teams !! u with
  | Some team => Some team
  | None => ev_lookup u ev ≫= commit_rule
  end.
Proof.
  unfold commit_simultaneously. cbn [fst].
  rewrite lookup_union, lookup_omap, map_lookup_filter, ev_lookup_list_to_map.
  destruct (teams !! u) as [team|] eqn:Hu.
  - destruct (ev_lookup u ev) as [c|]; simpl; [|done].
    rewrite option_guard_False by (simpl; congruence). done.
  - destruct (ev_lookup u ev) as [c|]; simpl; [|done].
    rewrite option_guard_True by done. simpl.
    by destruct (commit_rule c).
Qed.

Lemma simultaneous_changed ev teams :
  (commit_simultaneously ev teams).2 =
  bool_decide ((commit_simultaneously ev teams).1 ≠ teams).
Proof.
  unfold commit_simultaneously. cbn [fst snd].
  set (new := omap commit_rule _).
  apply bool_decide_ext. split.
  - intros Hne Heq. apply map_choose in Hne as (k & x & Hk).
    assert (teams !! k = None) as Hnone.
    { unfold new in Hk. rewrite lookup_omap, map_lookup_filter in Hk.
      destruct (list_to_map ev !! k) as [c|]; simpl in Hk; [|done].
      case_guard; [done | simpl in Hk; done]. }
    assert ((teams ∪ new) !! k = Some x) as Hx
      by (by rewrite lookup_union_r).
    rewrite Heq in Hx. congruence.
  - intros Hne ->. apply Hne. apply (right_id_L ∅ (∪)).
Qed.

(** On a dictionary, the sequential loop commits what committing all
    matching users at once commits. *)
Lemma commit_simultaneous ev teams :
  NoDup ev.*1 → commit ev teams = commit_simultaneously ev teams.
Proof.
  intros Hnd.
  assert ((commit ev teams).1 = (commit_simultaneously ev teams).1) as H1.
  { apply map_eq. intros u.
    by rewrite commit_lookup, simultaneous_lookup. }
  apply injective_projections; [done|].
  by rewrite commit_changed, simultaneous_changed, H1.
Qed.

(** The order of the entries of the dictionary is irrelevant. *)
Lemma commit_permutation ev ev' teams :
  NoDup ev.*1 → ev ≡ₚ ev' → commit ev teams = commit ev' teams.
Proof.
  intros Hnd Hperm.
  assert (NoDup ev'.*1) as Hnd' by (by rewrite <-Hperm).
  rewrite !commit_simultaneous by done.
  unfold commit_simultaneously.
  by rewrite (list_to_map_proper ev ev').
Qed.

(** The label of each user after a pass is a function of the label state
    at the start of the pass alone. *)
Lemma pass_lookup df teams u :
  (pass df teams).1 !! u =
  match teams !! u with
  | Some team => Some team
  | None => tally teams df u ≫= commit_rule
  end.
Proof.
  unfold pass. rewrite commit_lookup by apply NoDup_collect.
  by rewrite ev_lookup_collect.
Qed.

Lemma pass_mono df teams : teams ⊆ (pass df teams).1.
Proof. apply commit_mono. Qed.

Lemma pass_changed df teams :
  (pass df teams).2 = bool_decide ((pass df teams).1 ≠ teams).
Proof. apply commit_changed. Qed.

Lemma pass_unchanged df teams :
  (pass df teams).2 = false → (pass df teams).1 = teams.
Proof.
  rewrite pass_changed. intros H%bool_decide_eq_false.
  destruct (decide ((pass df teams).1 = teams)); [done|]. by destruct H.
Qed.
End commit_loop.

(** ** The fixpoint loop *)

Section fixpoint_loop.
Implicit Types (teams seed final : Teams) (df : list Row) (u : string).

Lemma unlabelled_size df teams :
  size (unlabelled df teams) ≤ size (participants df).
Proof. apply subseteq_size. unfold unlabelled. set_solver. Qed.

(** A pass that raises [changed] labels a user of the data frame that had
    no label. *)
Lemma pass_changed_new df teams :
  (pass df teams).2 = true →
  ∃ u, teams !! u = None ∧ is_Some ((pass df teams).1 !! u) ∧
       is_Some (tally teams df u).
Proof.
  unfold pass. rewrite commit_simultaneous by apply NoDup_collect.
  unfold commit_simultaneously. cbn [fst snd].
  intros Hne%bool_decide_eq_true. apply map_choose in Hne as (k & x & Hk).
  pose proof Hk as Hk'.
  rewrite lookup_omap, map_lookup_filter, ev_lookup_list_to_map in Hk.
  rewrite ev_lookup_collect in Hk.
  destruct (tally teams df k) as [c|] eqn:Ht; simpl in Hk; [|done].
  case_guard as Hg; simpl in Hk, Hg; [|done].
  exists k. split_and!; [done | | by eexists].
  rewrite lookup_union_r by done. by eexists.
Qed.

Lemma pass_changed_decreases df teams :
  (pass df teams).2 = true →
  size (unlabelled df (pass df teams).1) < size (unlabelled df teams).
Proof.
  intros (u & Hu & Hsome & [c Hc])%pass_changed_new.
  apply tally_Some in Hc as (_ & Hpart & _).
  apply subset_size. unfold unlabelled.
  pose proof (subseteq_dom _ _ (pass_mono df teams)) as Hdom.
  apply elem_of_dom in Hsome. apply not_elem_of_dom in Hu.
  split.
  - intros x [Hx Hnx]%elem_of_difference. apply elem_of_difference.
    split; [done|]. intros Hd. by apply Hnx, Hdom.
  - intros Hsub.
    assert (u ∈ participants df ∖ dom teams) as Hin
      by (by apply elem_of_difference).
    apply Hsub, elem_of_difference in Hin as [_ Hn]. by apply Hn.
Qed.

Lemma after_passes_S df n seed :
  after_passes df (S n) seed = after_passes df n (pass df seed).1.
Proof. unfold after_passes. by rewrite Nat.iter_succ_r. Qed.

(** Every run: [k] passes that each add a label, then one that adds none,
    after which the loop returns. *)
Lemma infer_loop_run df seed :
  ∃ k final,
    k ≤ size (unlabelled df seed) ∧
    final = after_passes df k seed ∧
    (∀ j, j < k → (pass df (after_passes df j seed)).2 = true) ∧
    pass df final = (final, false) ∧
    infer_loop (S k) df seed = Some final.
Proof.
  remember (size (unlabelled df seed)) as m eqn:Hm.
  revert seed Hm. induction (lt_wf m) as [m _ IH]. intros seed ->.
  destruct (pass df seed) as [teams' changed] eqn:Hp.
  destruct changed.
  - assert (size (unlabelled df teams') < size (unlabelled df seed)) as Hlt.
    { pose proof (pass_changed_decreases df seed) as H. rewrite Hp in H.
      by apply H. }
    destruct (IH _ Hlt teams' eq_refl) as (k & final & Hk & -> & Hall & Hfix & Hrun).
    exists (S k), (after_passes df k teams'). split_and!.
    + lia.
    + by rewrite after_passes_S, Hp.
    + intros [|j] Hj.
      { change (after_passes df 0 seed) with seed. by rewrite Hp. }
      rewrite after_passes_S, Hp. apply Hall. lia.
    + done.
    + change (infer_loop (S (S k)) df seed) with
        (let '(teams', changed) := pass df seed in
         if changed then infer_loop (S k) df teams' else Some teams').
      by rewrite Hp.
  - assert (teams' = seed) as ->.
    { pose proof (pass_unchanged df seed) as H. rewrite Hp in H. by apply H. }
    exists 0, seed. split_and!; [lia | done | intros; lia | done |].
    simpl. by rewrite Hp.
Qed.

Lemma infer_loop_fuel_mono n m df teams final :
  infer_loop n df teams = Some final → n ≤ m →
  infer_loop m df teams = Some final.
Proof.
  revert m teams. induction n as [|n IH]; intros m teams Hn Hle; [done|].
  destruct m as [|m]; [lia|]. simpl in *.
  destruct (pass df teams) as [teams' []]; [|done].
  apply IH; [done | lia].
Qed.

(** The fuel of [infer_teams] is enough. *)
Lemma infer_loop_enough_fuel df seed n :
  size (unlabelled df seed) < n → is_Some (infer_loop n df seed).
Proof.
  intros Hn. destruct (infer_loop_run df seed) as (k & final & Hk & _ & _ & _ & Hrun).
  exists final. eapply infer_loop_fuel_mono; [done | lia].
Qed.

Lemma infer_loop_mono n df seed final :
  infer_loop n df seed = Some final → seed ⊆ final.
Proof.
  revert seed. induction n as [|n IH]; intros seed; [done|]. simpl.
  pose proof (pass_mono df seed) as Hmono.
  destruct (pass df seed) as [teams' []]; simpl in Hmono.
  - intros H%IH. by etrans.
  - by intros [= <-].
Qed.

Lemma after_passes_mono df n seed :
  after_passes df n seed ⊆ after_passes df (S n) seed.
Proof. unfold after_passes. simpl. apply pass_mono. Qed.

End fixpoint_loop.

(** ** The commit rule *)

Section commit_rule_facts.
Implicit Types (r p : nat) (c : Counts).

Lemma commit_branch_cases r p :
  (2 * p < r ∧ commit_branch r p = DominantReindeer) ∨
  (2 * r < p ∧ commit_branch r p = DominantPenguin) ∨
  (r ≤ 2 * p ∧ p ≤ 2 * r ∧ commit_branch r p = NoBranch).
Proof.
  unfold commit_branch.
  destruct (p * 2 <? r) eqn:H1, (0 <? r) eqn:H2, (r * 2 <? p) eqn:H3,
    (0 <? p) eqn:H4, (p =? 0) eqn:H5, (r =? 0) eqn:H6; simpl;
    rewrite ?Nat.ltb_lt, ?Nat.ltb_ge, ?Nat.eqb_eq, ?Nat.eqb_neq in *;
    first [ lia | left; split; [lia|done] | right; left; split; [lia|done]
          | right; right; split_and!; [lia|lia|done] ].
Qed.

Lemma commit_branch_dominant_reindeer r p :
  commit_branch r p = DominantReindeer ↔ r > 2 * p ∧ r > 0.
Proof.
  destruct (commit_branch_cases r p) as [[? ->]|[[? ->]|(? & ? & ->)]];
    split; try done; lia.
Qed.

Lemma commit_branch_dominant_penguin r p :
  commit_branch r p = DominantPenguin ↔ p > 2 * r ∧ p > 0.
Proof.
  destruct (commit_branch_cases r p) as [[? ->]|[[? ->]|(? & ? & ->)]];
    split; try done; lia.
Qed.

Lemma commit_rule_reindeer r p :
  commit_rule (mkCounts r p) = Some Reindeer ↔ r > 2 * p ∧ r > 0.
Proof.
  unfold commit_rule. simpl.
  destruct (commit_branch_cases r p) as [[? ->]|[[? ->]|(? & ? & ->)]];
    simpl; split; try done; lia.
Qed.

Lemma commit_rule_penguin r p :
  commit_rule (mkCounts r p) = Some Penguin ↔ p > 2 * r ∧ p > 0.
Proof.
  unfold commit_rule. simpl.
  destruct (commit_branch_cases r p) as [[? ->]|[[? ->]|(? & ? & ->)]];
    simpl; split; try done; lia.
Qed.

Lemma commit_rule_none r p :
  commit_rule (mkCounts r p) = None ↔ r ≤ 2 * p ∧ p ≤ 2 * r.
Proof.
  unfold commit_rule. simpl.
  destruct (commit_branch_cases r p) as [[? ->]|[[? ->]|(? & ? & ->)]];
    simpl; split; try done; lia.
Qed.





End commit_rule_facts.

(** ** Runs of the engine *)

Section runs.
Implicit Types (teams seed final : Teams) (df : list Row) (u : string).

Lemma infer_teams_run df seed :
  ∃ k final,
    k ≤ size (unlabelled df seed) ∧
    final = after_passes df k seed ∧
    (∀ j, j < k → (pass df (after_passes df j seed)).2 = true) ∧
    pass df final = (final, false) ∧
    infer_loop (S k) df seed = Some final ∧
    infer_teams df seed = Some final.
Proof.
  destruct (infer_loop_run df seed) as (k & final & Hk & Hf & Hall & Hfix & Hrun).
  exists k, final. split_and!; try done.
  eapply infer_loop_fuel_mono; [done|].
  pose proof (unlabelled_size df seed). lia.
Qed.


Lemma pass_dom df teams :
  dom (pass df teams).1 ⊆ dom teams ∪ participants df.
Proof.
  intros u [team Hu]%elem_of_dom. rewrite pass_lookup in Hu.
  apply elem_of_union. destruct (teams !! u) eqn:Ht.
  - left. by apply elem_of_dom.
  - right. destruct (tally teams df u) as [c|] eqn:Hc; [|done].
    by apply tally_Some in Hc as (_ & ? & _).
Qed.

Lemma after_passes_dom df n seed :
  dom (after_passes df n seed) ⊆ dom seed ∪ participants df.
Proof.
  induction n as [|n IH]; [apply union_subseteq_l|].
  change (after_passes df (S n) seed)
    with (pass df (after_passes df n seed)).1.
  intros u Hu. apply pass_dom, elem_of_union in Hu as [Hu|Hu].
  - by apply IH.
  - by apply elem_of_union_r.
Qed.

Lemma pass_changed_strict df teams :
  (pass df teams).2 = true → teams ⊂ (pass df teams).1.
Proof.
  intros (u & Hu & [team Hsome] & _)%pass_changed_new.
  split; [apply pass_mono|]. intros Hsub.
  eapply lookup_weaken in Hsub; [|done]. congruence.
Qed.

(** A vote needs a labelled user of the data frame. *)
Lemma pass_changed_labelled df teams :
  (pass df teams).2 = true →
  ∃ w, w ∈ participants df ∧ is_Some (teams !! w).
Proof.
  intros (u & _ & _ & [c Hc])%pass_changed_new.
  unfold tally in Hc. case_decide as Hz; [done|].
  assert (∃ team, 0 < votes teams df u team) as [team Hpos].
  { destruct (votes teams df u Reindeer) eqn:Hr.
    - exists Penguin. lia.
    - exists Reindeer. lia. }
  apply votes_pos in Hpos as (row & Hin & Hv). unfold vote_of in Hv.
  destruct (teams !! Attacker row) eqn:Ha, (teams !! Victim row) eqn:Hv';
    try done.
  - exists (Attacker row). split; [|by rewrite Ha].
    apply elem_of_participants. eauto.
  - exists (Victim row). split; [|by rewrite Hv'].
    apply elem_of_participants. eauto.
Qed.


(** A row from a user to itself leaves the evidence as it is. *)
Lemma scan_row_self teams ev u : scan_row teams ev (mkRow u u) = ev.
Proof. unfold scan_row. simpl. by destruct (teams !! u). Qed.

Lemma collect_without_self teams df1 df2 u :
  collect teams (df1 ++ mkRow u u :: df2) = collect teams (df1 ++ df2).
Proof.
  unfold collect. rewrite !fold_left_app. simpl. by rewrite scan_row_self.
Qed.

Lemma infer_loop_ext n df df' teams :
  (∀ t, pass df t = pass df' t) →
  infer_loop n df teams = infer_loop n df' teams.
Proof.
  intros Hext. revert teams. induction n as [|n IH]; intros teams; [done|].
  simpl. rewrite Hext. destruct (pass df' teams) as [teams' []]; [apply IH|done].
Qed.

Lemma infer_teams_ext df df' seed :
  (∀ t, pass df t = pass df' t) → infer_teams df seed = infer_teams df' seed.
Proof.
  intros Hext.
  destruct (infer_teams_run df seed) as (k & final & _ & _ & _ & _ & Hk & ->).
  destruct (infer_teams_run df' seed) as (k' & final' & _ & _ & _ & _ & Hk' & ->).
  apply (infer_loop_fuel_mono _ (S k + S k')) in Hk; [|lia].
  apply (infer_loop_fuel_mono _ (S k + S k')) in Hk'; [|lia].
  rewrite (infer_loop_ext _ df df') in Hk by done. congruence.
Qed.
End runs.

(** ** The statistics table *)

Section statistics.
Implicit Types (df : list Row) (col : list string) (u : string).
Implicit Types (solid_teams : Teams).

Lemma series_get_fmap (f : string → nat) (l : list string) u :
  series_get ((λ k, (k, f k)) <$> l) u =
  if decide (u ∈ l) then Some (f u) else None.
Proof.
  induction l as [|k l IH]; [done|].
  rewrite fmap_cons. cbn [series_get].
  destruct (decide (k = u)) as [->|Hne].
  - rewrite decide_True; [done | apply list_elem_of_here].
  - rewrite IH. destruct (decide (u ∈ l)) as [Hin|Hnin].
    + rewrite decide_True; [done | by apply list_elem_of_further].
    + rewrite decide_False; [done|].
      rewrite not_elem_of_cons. by split; [intros ->|].
Qed.

Lemma count_not_elem col u : u ∉ col → length (filter (λ x, x = u) col) = 0.
Proof.
  induction col as [|x col IH]; [done|].
  intros [Hne Hnin]%not_elem_of_cons.
  rewrite filter_cons, decide_False by done. by apply IH.
Qed.

(** A user missing from a series counts for 0 after [fillna(0)]. *)
Lemma series_get_value_counts col u :
  default 0 (series_get (value_counts col) u) =
  length (filter (λ x, x = u) col).
Proof.
  unfold value_counts.
  rewrite (series_get_fmap (λ k, length (filter (λ x, x = k) col))).
  case_decide as Hin; [done|].
  rewrite elem_of_remove_dups in Hin. simpl. by rewrite count_not_elem.
Qed.

Lemma value_counts_keys col : (value_counts col).*1 = remove_dups col.
Proof.
  unfold value_counts. rewrite <-list_fmap_compose.
  induction (remove_dups col) as [|x l IH]; [done|].
  rewrite fmap_cons. simpl. by rewrite IH.
Qed.

Lemma outgoing_column df u :
  length (filter (λ x, x = u) (Attacker <$> df)) = outgoing df u.
Proof.
  unfold outgoing. induction df as [|row df IH]; [done|].
  rewrite fmap_cons, !filter_cons.
  case_decide; simpl; by rewrite IH.
Qed.

Lemma incoming_column df u :
  length (filter (λ x, x = u) (Victim <$> df)) = incoming df u.
Proof.
  unfold incoming. induction df as [|row df IH]; [done|].
  rewrite fmap_cons, !filter_cons.
  case_decide; simpl; by rewrite IH.
Qed.

Lemma outgoing_pos df u : 0 < outgoing df u ↔ u ∈ Attacker <$> df.
Proof.
  rewrite <-outgoing_column. split.
  - intros Hpos. destruct (decide (u ∈ Attacker <$> df)) as [|Hn]; [done|].
    rewrite count_not_elem in Hpos by done. lia.
  - induction (Attacker <$> df) as [|x l IH]; [by intros ?%elem_of_nil|].
    rewrite filter_cons. intros [->|Hin]%elem_of_cons.
    + rewrite decide_True by done. simpl. lia.
    + case_decide; simpl; [lia | by apply IH].
Qed.

Lemma incoming_pos df u : 0 < incoming df u ↔ u ∈ Victim <$> df.
Proof.
  rewrite <-incoming_column. split.
  - intros Hpos. destruct (decide (u ∈ Victim <$> df)) as [|Hn]; [done|].
    rewrite count_not_elem in Hpos by done. lia.
  - induction (Victim <$> df) as [|x l IH]; [by intros ?%elem_of_nil|].
    rewrite filter_cons. intros [->|Hin]%elem_of_cons.
    + rewrite decide_True by done. simpl. lia.
    + case_decide; simpl; [lia | by apply IH].
Qed.

Lemma participants_columns df u :
  u ∈ participants df ↔ u ∈ Attacker <$> df ∨ u ∈ Victim <$> df.
Proof.
  rewrite elem_of_participants, !list_elem_of_fmap. split.
  - intros (row & Hin & [->| ->]); [left|right]; by exists row.
  - intros [(row & -> & Hin)|(row & -> & Hin)]; exists row; auto.
Qed.

Lemma participants_counts df u :
  u ∈ participants df ↔ 0 < outgoing df u + incoming df u.
Proof.
  rewrite participants_columns, <-outgoing_pos, <-incoming_pos. lia.
Qed.

(** The table before the filter: one row per user of the data frame. *)
Lemma build_stats_rows df solid_teams :
  build_stats df solid_teams =
  filter (λ s, TeamLabel s ≠ None)
    ((λ u, mkStat u (outgoing df u) (incoming df u) (solid_teams !! u))
       <$> remove_dups (remove_dups (Attacker <$> df) ++
                        remove_dups (Victim <$> df))).
Proof.
  unfold build_stats, concat_fillna. rewrite !value_counts_keys.
  f_equal. rewrite <-list_fmap_compose. apply list_fmap_ext.
  intros _ u _. simpl.
  by rewrite !series_get_value_counts, outgoing_column, incoming_column.
Qed.

Lemma users_of_filtered (f : string → StatRow) solid_teams (l : list string) :
  (∀ u, User (f u) = u) → (∀ u, TeamLabel (f u) = solid_teams !! u) →
  User <$> filter (λ s, TeamLabel s ≠ None) (f <$> l) =
  filter (λ u, solid_teams !! u ≠ None) l.
Proof.
  intros HU HT. induction l as [|u l IH]; [done|].
  rewrite fmap_cons, !filter_cons, HT.
  case_decide; [rewrite fmap_cons, HU|]; by rewrite IH.
Qed.

Lemma build_stats_users df solid_teams :
  User <$> build_stats df solid_teams =
  filter (λ u, solid_teams !! u ≠ None)
    (remove_dups (remove_dups (Attacker <$> df) ++
                  remove_dups (Victim <$> df))).
Proof. rewrite build_stats_rows. by apply users_of_filtered. Qed.

Lemma elem_of_build_stats df solid_teams s :
  s ∈ build_stats df solid_teams ↔
  User s ∈ participants df ∧
  (∃ team, solid_teams !! User s = Some team ∧ TeamLabel s = Some team) ∧
  AttacksMade s = outgoing df (User s) ∧
  AttacksReceived s = incoming df (User s).
Proof.
  rewrite build_stats_rows, list_elem_of_filter, list_elem_of_fmap.
  setoid_rewrite elem_of_remove_dups. setoid_rewrite elem_of_app.
  setoid_rewrite elem_of_remove_dups.
  rewrite participants_columns. split.
  - intros (Hlab & u & -> & Hin). simpl in *.
    split_and!; try done.
    destruct (solid_teams !! u) as [team|]; [by exists team | done].
  - intros (Hin & (team & Hteam & Hlab) & Hm & Hr). split.
    + by rewrite Hlab.
    + exists (User s). split; [|done].
      destruct s as [w m r l]. simpl in *. subst. by rewrite Hteam.
Qed.
End statistics.

(** ** Votes by the team of the labelled endpoint *)

Section votes_by_team.
Implicit Types (teams : Teams) (df : list Row) (row : Row) (u : string).

Lemma vote_of_from teams row u team :
  vote_of teams row = Some (u, opposite team) ↔
  (teams !! Attacker row = Some team ∧ teams !! Victim row = None ∧
   Victim row = u) ∨
  (teams !! Victim row = Some team ∧ teams !! Attacker row = None ∧
   Attacker row = u).
Proof.
  unfold vote_of.
  destruct (teams !! Attacker row) as [a|], (teams !! Victim row) as [v|].
  - split; [done | by intros [(_ & ? & _)|(_ & ? & _)]].
  - split.
    + intros [= <- Hop]. left. split_and!; try done.
      by destruct a, team.
    + intros [([= ->] & _ & <-)|(? & _)]; done.
  - split.
    + intros [= <- Hop]. right. split_and!; try done.
      by destruct v, team.
    + intros [(? & _)|([= ->] & _ & <-)]; done.
  - split; [done | by intros [(? & _)|(? & _)]].
Qed.

Lemma votes_opposite teams df u team :
  votes teams df u (opposite team) = votes_from teams df u team.
Proof.
  unfold votes, votes_from. induction df as [|row df IH]; [done|].
  rewrite !filter_cons. pose proof (vote_of_from teams row u team) as Hrow.
  destruct (decide (vote_of teams row = Some (u, opposite team))) as [Hv|Hv].
  - rewrite decide_True by (by apply Hrow). simpl. by rewrite IH.
  - rewrite decide_False by (by rewrite <-Hrow). done.
Qed.

(** The counter for Reindeer counts the rows whose labelled endpoint is a
    penguin, the counter for Penguin those whose labelled endpoint is a
    reindeer. *)
Lemma tally_votes_from teams df u :
  tally teams df u =
  if decide (votes_from teams df u Penguin + votes_from teams df u Reindeer = 0)
  then None
  else Some (mkCounts (votes_from teams df u Penguin)
                      (votes_from teams df u Reindeer)).
Proof.
  unfold tally.
  by rewrite <-(votes_opposite teams df u Penguin),
             <-(votes_opposite teams df u Reindeer).
Qed.
End votes_by_team.

(** ** Properties of the inference engine *)

(** C1. In a commit pass, an unlabelled user whose evidence holds the counts
    [(r, p)] is assigned Reindeer exactly when [r > 2 * p] and [r > 0], and
    Penguin exactly when [p > 2 * r] and [p > 0]. The dominance tests come
    first in the chain: they are the branches taken whenever their condition
    holds, also when a one-sided condition holds as well (one count zero,
    the other positive), and then the positive team is assigned. Counts
    [(7, 3)] assign Reindeer; [(5, 3)] and [(0, 0)] assign nothing. *)
Theorem C1_commit_rule :
  (∀ df teams u r p,
     teams !! u = None →
     ev_lookup u (collect teams df) = Some (mkCounts r p) →
     ((pass df teams).1 !! u = Some Reindeer ↔ r > 2 * p ∧ r > 0) ∧
     ((pass df teams).1 !! u = Some Penguin ↔ p > 2 * r ∧ p > 0)) ∧
  (∀ r p,
     (commit_branch r p = DominantReindeer ↔ r > 2 * p ∧ r > 0) ∧
     (commit_branch r p = DominantPenguin ↔ p > 2 * r ∧ p > 0) ∧
     (r > 0 ∧ p = 0 → commit_rule (mkCounts r p) = Some Reindeer) ∧
     (p > 0 ∧ r = 0 → commit_rule (mkCounts r p) = Some Penguin)) ∧
  commit_rule (mkCounts 7 3) = Some Reindeer ∧
  commit_rule (mkCounts 5 3) = None ∧
  commit_rule (mkCounts 0 0) = None.
Proof.
  split_and!; try done.
  - intros df teams u r p Hu Hev.
    rewrite pass_lookup, Hu, <-ev_lookup_collect, Hev. simpl.
    split; [apply commit_rule_reindeer | apply commit_rule_penguin].
  - intros r p. split_and!.
    + apply commit_branch_dominant_reindeer.
    + apply commit_branch_dominant_penguin.
    + intros [? ->]. apply commit_rule_reindeer. lia.
    + intros [? ->]. apply commit_rule_penguin. lia.
Qed.

(** C2. Labels are write-once: no step of the commit loop and no pass
    changes or removes a label that is there, the label state after each
    pass extends the one before it, and the state the engine returns extends
    the seed, so every seeded user ends with its seed label whatever the
    rows are. *)
Theorem C2_labels_write_once (df : list Row) (seed : Teams) :
  (∀ st item, st.1 ⊆ (commit_user st item).1) ∧
  (∀ teams u team,
     teams !! u = Some team → (pass df teams).1 !! u = Some team) ∧
  (∀ n, after_passes df n seed ⊆ after_passes df (S n) seed) ∧
  (∀ n, dom (after_passes df n seed) ⊆ dom (after_passes df (S n) seed)) ∧
  ∃ final,
    infer_teams df seed = Some final ∧
    seed ⊆ final ∧
    ∀ u team, seed !! u = Some team → final !! u = Some team.
Proof.
  split_and!.
  - apply commit_user_mono.
  - intros teams u team Hu. by rewrite pass_lookup, Hu.
  - intros n. apply after_passes_mono.
  - intros n. apply subseteq_dom, after_passes_mono.
  - destruct (infer_loop_enough_fuel df seed (S (size (participants df))))
      as [final Hfinal].
    { pose proof (unlabelled_size df seed). lia. }
    exists final. pose proof (infer_loop_mono _ _ _ _ Hfinal) as Hsub.
    split_and!; [done | done |].
    intros u team Hu. by eapply lookup_weaken.
Qed.

(** C3. In the evidence-collection sweep a row with exactly one labelled
    endpoint adds one to the counter of the other endpoint for the team
    opposite to the labelled one (Penguin for a labelled reindeer, Reindeer
    for a labelled penguin), a row with both or neither endpoint labelled
    adds nothing, and nothing is deduplicated: at the end the dictionary
    holds for each user, per team, the number of rows with that user as the
    unlabelled endpoint and a labelled endpoint of the other team, over the
    whole data frame. *)
Theorem C3_evidence_tally (teams : Teams) (df : list Row) :
  (∀ ev row,
     scan_row teams ev row =
     match teams !! Attacker row, teams !! Victim row with
     | Some Reindeer, None => add_vote (Victim row) Penguin ev
     | Some Penguin, None => add_vote (Victim row) Reindeer ev
     | None, Some Reindeer => add_vote (Attacker row) Penguin ev
     | None, Some Penguin => add_vote (Attacker row) Reindeer ev
     | _, _ => ev
     end) ∧
  (∀ ev u,
     ev_lookup u (add_vote u Reindeer ev) =
       Some (mkCounts
               (S (nReindeer (default (mkCounts 0 0) (ev_lookup u ev))))
               (nPenguin (default (mkCounts 0 0) (ev_lookup u ev)))) ∧
     ev_lookup u (add_vote u Penguin ev) =
       Some (mkCounts
               (nReindeer (default (mkCounts 0 0) (ev_lookup u ev)))
               (S (nPenguin (default (mkCounts 0 0) (ev_lookup u ev))))) ∧
     ∀ k team, k ≠ u → ev_lookup k (add_vote u team ev) = ev_lookup k ev) ∧
  (∀ u, ev_lookup u (collect teams df) =
        if decide (votes_from teams df u Penguin +
                   votes_from teams df u Reindeer = 0)
        then None
        else Some (mkCounts (votes_from teams df u Penguin)
                            (votes_from teams df u Reindeer))) ∧
  (∀ u c, ev_lookup u (collect teams df) = Some c →
     nReindeer c = votes_from teams df u Penguin ∧
     nPenguin c = votes_from teams df u Reindeer) ∧
  (∀ u, ev_lookup u (collect teams df) = tally teams df u).
Proof.
  split_and!.
  - intros ev row. rewrite scan_row_vote. unfold vote_of.
    destruct (teams !! Attacker row) as [[]|],
             (teams !! Victim row) as [[]|]; done.
  - intros ev u. split_and!.
    + by rewrite ev_lookup_add_vote_eq.
    + by rewrite ev_lookup_add_vote_eq.
    + intros k team Hk. by apply ev_lookup_add_vote_ne.
  - intros u. by rewrite ev_lookup_collect, tally_votes_from.
  - intros u c. rewrite ev_lookup_collect, tally_votes_from.
    case_decide; [done|]. by intros [= <-].
  - intros u. apply ev_lookup_collect.
Qed.


(** C5. One evidence snapshot per pass: the dictionary of a pass is built
    from the label state at the start of the pass, every commit of the pass
    is decided from it, and the sequential commit loop yields what
    committing all matching users at once yields, whatever the order in
    which the dictionary is traversed. *)
Theorem C5_one_snapshot_per_pass (df : list Row) (teams : Teams) :
  pass df teams =
    fold_left commit_user (fold_left (scan_row teams) df []) (teams, false) ∧
  pass df teams = commit_simultaneously (collect teams df) teams ∧
  (∀ ev', collect teams df ≡ₚ ev' → commit ev' teams = pass df teams) ∧
  (∀ u, (pass df teams).1 !! u =
        match teams !! u with
        | Some team => Some team
        | None => tally teams df u ≫= commit_rule
        end).
Proof.
  split_and!.
  - done.
  - apply commit_simultaneous, NoDup_collect.
  - intros ev' Hperm. symmetry.
    apply commit_permutation; [apply NoDup_collect | done].
  - apply pass_lookup.
Qed.

(** C6 as stated fails on the data frame without rows: it has no user
    ([P = 0]), the loop has not returned within [P] passes, and it returns
    after its one pass, which adds no label. *)
Lemma C6_counterexample :
  size (participants []) = 0 ∧
  infer_loop (size (participants [])) [] (∅ : Teams) = None ∧
  pass [] (∅ : Teams) = (∅, false) ∧
  infer_loop 1 [] (∅ : Teams) = Some ∅.
Proof. split_and!; vm_compute; reflexivity. Qed.

(** C6, amended. Termination: the loop of the engine always returns. With
    [P] the number of users of the data frame, some [k ≤ P] passes each add
    a label (the label state grows strictly, within the seeded users and
    those of the data frame), the next pass adds none and the loop stops
    there: it runs [k + 1] passes, at most [max 1 P]; these are at most [P]
    on a data frame with at least one row, and one pass on a data frame
    without rows. *)
Theorem C6_termination (df : list Row) (seed : Teams) :
  ∃ k final,
    k ≤ size (participants df) ∧
    final = after_passes df k seed ∧
    (∀ j, j < k → after_passes df j seed ⊂ after_passes df (S j) seed) ∧
    (∀ n, dom (after_passes df n seed) ⊆ dom seed ∪ participants df) ∧
    pass df final = (final, false) ∧
    infer_loop (S k) df seed = Some final ∧
    infer_teams df seed = Some final ∧
    (df ≠ [] → S k ≤ size (participants df)) ∧
    (df = [] → k = 0 ∧ final = seed) ∧
    S k ≤ Nat.max 1 (size (participants df)) ∧
    infer_loop (Nat.max 1 (size (participants df))) df seed = Some final.
Proof.
  destruct (infer_teams_run df seed)
    as (k & final & Hk & Hf & Hall & Hfix & Hrun & Hteams).
  pose proof (unlabelled_size df seed) as Hsize.
  assert (df ≠ [] → S k ≤ size (participants df)) as Hrows.
  { intros Hdf. destruct k as [|k].
    + destruct df as [|row df]; [done|].
      assert (Attacker row ∈ participants (row :: df)) as Hin.
      { apply elem_of_participants. exists row.
        split; [apply list_elem_of_here | by left]. }
      destruct (size (participants (row :: df))) eqn:Hs; [|lia].
      apply size_empty_inv in Hs. by apply Hs in Hin.
    + assert ((pass df seed).2 = true) as Hch by (apply (Hall 0); lia).
      apply pass_changed_labelled in Hch as (w & Hw & Hsome).
      assert (unlabelled df seed ⊂ participants df) as Hsub.
      { unfold unlabelled. split.
        - by intros x [? _]%elem_of_difference.
        - intros Hsub. apply Hsub, elem_of_difference in Hw as [_ Hn].
          by apply Hn, elem_of_dom. }
      apply subset_size in Hsub. lia. }
  assert (df = [] → k = 0) as Hempty.
  { intros ->. assert (size (participants []) = 0) as Hz by done. lia. }
  assert (S k ≤ Nat.max 1 (size (participants df))) as Hmax.
  { destruct df as [|row df]; [rewrite Hempty by done; lia|].
    assert (S k ≤ size (participants (row :: df))) by (by apply Hrows). lia. }
  exists k, final. split_and!; try done.
  - lia.
  - intros j Hj. apply (pass_changed_strict df (after_passes df j seed)).
    by apply Hall.
  - intros n. apply after_passes_dom.
  - intros Hdf. pose proof (Hempty Hdf) as Hk0. split; [done|].
    subst k. by rewrite Hf.
  - by apply (infer_loop_fuel_mono (S k)).
Qed.

(** C9. A row whose attacker is its victim is accepted: the sweep runs over
    it as over any row, it casts no vote, so the evidence of every pass, the
    passes and the result of the engine are those of the data frame without
    the row. *)
Theorem C9_self_interaction (teams : Teams) (df1 df2 : list Row) (u : string) :
  vote_of teams (mkRow u u) = None ∧
  (∀ ev, scan_row teams ev (mkRow u u) = ev) ∧
  collect teams (df1 ++ mkRow u u :: df2) = collect teams (df1 ++ df2) ∧
  (∀ w team, votes teams (df1 ++ mkRow u u :: df2) w team =
             votes teams (df1 ++ df2) w team) ∧
  pass (df1 ++ mkRow u u :: df2) teams = pass (df1 ++ df2) teams ∧
  infer_teams (df1 ++ mkRow u u :: df2) teams = infer_teams (df1 ++ df2) teams ∧
  is_Some (infer_teams (df1 ++ mkRow u u :: df2) teams).
Proof.
  assert (∀ t, vote_of t (mkRow u u) = None) as Hvote.
  { intros t. unfold vote_of. simpl. by destruct (t !! u). }
  split_and!.
  - apply Hvote.
  - intros ev. apply scan_row_self.
  - apply collect_without_self.
  - intros w team. unfold votes.
    rewrite !filter_app, filter_cons, decide_False; [done|].
    by rewrite Hvote.
  - unfold pass. by rewrite collect_without_self.
  - apply infer_teams_ext. intros t. unfold pass.
    by rewrite collect_without_self.
  - destruct (infer_teams_run (df1 ++ mkRow u u :: df2) teams)
      as (k & final & _ & _ & _ & _ & _ & ->). by eexists.
Qed.


(** ** Properties of the statistics table *)

(** C7. The table of [main] holds exactly one row (user, attacks made,
    attacks received, team) for every user that is attacker or victim of at
    least one row of the data frame and has a team in the final label
    state, with the number of rows where it is the attacker and the number
    where it is the victim; users without a team are left out. *)
Theorem C7_report (df : list Row) (solid_teams : Teams) :
  NoDup (User <$> build_stats df solid_teams) ∧
  (∀ s, s ∈ build_stats df solid_teams ↔
        User s ∈ participants df ∧
        (∃ team, solid_teams !! User s = Some team ∧
                 TeamLabel s = Some team) ∧
        AttacksMade s = outgoing df (User s) ∧
        AttacksReceived s = incoming df (User s)) ∧
  (∀ u, u ∈ User <$> build_stats df solid_teams ↔
        u ∈ participants df ∧ is_Some (solid_teams !! u)) ∧
  (∀ user_teams, ∃ final,
     infer_teams df user_teams = Some final ∧
     main_stats df user_teams = Some (build_stats df final)).
Proof.
  split_and!.
  - rewrite build_stats_users. apply NoDup_filter, NoDup_remove_dups.
  - apply elem_of_build_stats.
  - intros u. rewrite build_stats_users, list_elem_of_filter.
    rewrite elem_of_remove_dups, elem_of_app, !elem_of_remove_dups.
    rewrite participants_columns, <-not_eq_None_Some. tauto.
  - intros user_teams.
    destruct (infer_teams_run df user_teams)
      as (k & final & _ & _ & _ & _ & _ & Hrun).
    exists final. split; [done|]. unfold main_stats. by rewrite Hrun.
Qed.

(** C8 as stated fails: a seeded user that is in no row of the data frame
    has a team and two zero counts, and no row in the table; and a user with
    no attack made and two received, hit once by each team, gets no team and
    no row either. *)
Lemma C8_counterexample :
  (ex_tie_seed !! "Q" = Some Penguin ∧
   outgoing ex_tie_df "Q" = 0 ∧ incoming ex_tie_df "Q" = 0) ∧
  (outgoing ex_tie_df "W" = 0 ∧ incoming ex_tie_df "W" = 2) ∧
  ∃ final out,
    infer_teams ex_tie_df ex_tie_seed = Some final ∧
    main_stats ex_tie_df ex_tie_seed = Some out ∧
    final !! "Q" = Some Penguin ∧
    (¬ ∃ s, s ∈ out ∧ User s = "Q") ∧
    (¬ ∃ s, s ∈ out ∧ User s = "W").
Proof.
  split_and!; try (vm_compute; reflexivity).
  do 2 eexists.
  split_and!; try (vm_compute; reflexivity);
    intros (s & Hin & Hs);
    repeat (apply elem_of_cons in Hin as [->|Hin]; [by vm_compute in Hs|]);
    by apply elem_of_nil in Hin.
Qed.

(** C8, amended. A user with a team in the final label state (every seeded
    user has one, its seed team) and with at least one nonzero count has its
    row in the table, where a count that is zero is recorded as 0; a user
    with both counts zero has no row, seeded or not. *)
Theorem C8_zero_counts (df : list Row) (user_teams : Teams) :
  ∃ final out,
    infer_teams df user_teams = Some final ∧
    main_stats df user_teams = Some out ∧
    (∀ u team, user_teams !! u = Some team → final !! u = Some team) ∧
    (∀ u team,
       final !! u = Some team →
       0 < outgoing df u + incoming df u →
       mkStat u (outgoing df u) (incoming df u) (Some team) ∈ out) ∧
    (∀ u team,
       final !! u = Some team →
       (outgoing df u = 0 ∧ 0 < incoming df u →
          mkStat u 0 (incoming df u) (Some team) ∈ out) ∧
       (incoming df u = 0 ∧ 0 < outgoing df u →
          mkStat u (outgoing df u) 0 (Some team) ∈ out)) ∧
    (∀ u, outgoing df u = 0 → incoming df u = 0 →
          ¬ ∃ s, s ∈ out ∧ User s = u).
Proof.
  destruct (infer_teams_run df user_teams)
    as (k & final & _ & _ & _ & _ & Hloop & Hrun).
  exists final, (build_stats df final).
  assert (∀ u team, final !! u = Some team →
            0 < outgoing df u + incoming df u →
            mkStat u (outgoing df u) (incoming df u) (Some team)
              ∈ build_stats df final) as Hrow.
  { intros u team Hu Hpos. apply elem_of_build_stats. simpl.
    split_and!; try done; [by apply participants_counts | by exists team]. }
  split_and!.
  - done.
  - unfold main_stats. by rewrite Hrun.
  - intros u team Hu. eapply lookup_weaken; [done|].
    by eapply infer_loop_mono.
  - done.
  - intros u team Hu. split.
    + intros [Hz Hpos]. rewrite <-Hz at 1. apply Hrow; [done | lia].
    + intros [Hz Hpos]. rewrite <-Hz at 1. apply Hrow; [done | lia].
  - intros u Ho Hi (s & Hin & <-).
    apply elem_of_build_stats in Hin as (Hp%participants_counts & _). lia.
Qed.

(** ** Instances *)


(** Counts [(7, 3)] in a pass: the user becomes a reindeer. *)
Lemma C1_witness :
  (pass ex_dominant_df ex_dominant_seed).1 !! "Z" = Some Reindeer.
Proof.
  destruct (proj1 C1_commit_rule ex_dominant_df ex_dominant_seed "Z" 7 3)
    as [[_ H] _]; [vm_compute; reflexivity..|].
  apply H. lia.
Defined.


(** ** Further properties of the inference engine *)

Section engine_extras.
Implicit Types (teams seed final : Teams) (df : list Row) (u : string).
Implicit Types (row : Row) (team : Team) (c : Counts) (ev : Evidence).

Lemma infer_loop_invariant (P : Teams → Prop) n df seed final :
  P seed → (∀ t, P t → P (pass df t).1) →
  infer_loop n df seed = Some final → P final.
Proof.
  intros Hseed Hstep. revert seed Hseed.
  induction n as [|n IH]; intros seed Hseed; [done|]. simpl.
  pose proof (Hstep seed Hseed) as Hnext.
  destruct (pass df seed) as [teams' []]; simpl in Hnext.
  - by apply IH.
  - by intros [= <-].
Qed.

Lemma infer_teams_invariant (P : Teams → Prop) df seed final :
  P seed → (∀ t, P t → P (pass df t).1) →
  infer_teams df seed = Some final → P final.
Proof. apply infer_loop_invariant. Qed.

Lemma tally_Some_row teams df u c :
  tally teams df u = Some c →
  ∃ row team, row ∈ df ∧ vote_of teams row = Some (u, team).
Proof.
  unfold tally. case_decide as Hz; [done|]. intros _.
  assert (∃ team, 0 < votes teams df u team) as [team Hpos].
  { destruct (votes teams df u Reindeer) eqn:Hr.
    - exists Penguin. lia.
    - exists Reindeer. lia. }
  apply votes_pos in Hpos as (row & Hin & Hv). eauto.
Qed.

Lemma votes_elem teams df row u team :
  row ∈ df → vote_of teams row = Some (u, team) → 0 < votes teams df u team.
Proof.
  intros Hin Hv. unfold votes.
  assert (row ∈ filter (λ row, vote_of teams row = Some (u, team)) df) as Hf
    by (by apply list_elem_of_filter).
  destruct (filter _ df); [by apply elem_of_nil in Hf | simpl; lia].
Qed.

Lemma votes_zero teams df u team :
  (∀ row, row ∈ df → vote_of teams row ≠ Some (u, team)) →
  votes teams df u team = 0.
Proof.
  intros Hno. destruct (votes teams df u team) eqn:Hv; [done|].
  assert (0 < votes teams df u team) as Hpos by lia.
  apply votes_pos in Hpos as (row & Hin & Hrow). by apply Hno in Hin.
Qed.

(** A pass only labels users next to a labelled user. *)
Lemma pass_connected df seed teams :
  (∀ u, is_Some (teams !! u) → connected df seed u) →
  ∀ u, is_Some ((pass df teams).1 !! u) → connected df seed u.
Proof.
  intros Hinv u. rewrite pass_lookup.
  destruct (teams !! u) as [team|] eqn:Hu.
  { intros _. apply Hinv. by rewrite Hu. }
  destruct (tally teams df u) as [c|] eqn:Hc; [|by intros [? ?]].
  intros _. apply tally_Some_row in Hc as (row & team & Hin & Hv).
  unfold vote_of in Hv.
  destruct (teams !! Attacker row) eqn:Ha, (teams !! Victim row) eqn:Hv';
    try done; injection Hv as <- _.
  - apply connected_victim; [done|]. apply Hinv. by rewrite Ha.
  - apply connected_attacker; [done|]. apply Hinv. by rewrite Hv'.
Qed.

(** The dictionary of a label state with no row to vote is empty, and the
    pass is the last one. *)
Lemma pass_no_vote df teams :
  (∀ row, row ∈ df → vote_of teams row = None) →
  pass df teams = (teams, false).
Proof.
  intros Hno.
  assert ((pass df teams).1 = teams) as Heq.
  { apply map_eq. intros u. rewrite pass_lookup.
    destruct (teams !! u); [done|].
    destruct (tally teams df u) as [c|] eqn:Hc; [|done].
    apply tally_Some_row in Hc as (row & team & Hin & Hv).
    by rewrite (Hno row Hin) in Hv. }
  apply injective_projections; [done|]. simpl.
  rewrite pass_changed. by apply bool_decide_eq_false_2; intros ?.
Qed.

Lemma ev_lookup_elem ev u c :
  NoDup ev.*1 → (u, c) ∈ ev → ev_lookup u ev = Some c.
Proof.
  induction ev as [|[k' c'] ev IH]; [by intros _ ?%elem_of_nil|].
  rewrite fmap_cons, NoDup_cons. simpl.
  intros [Hk Hnd] [[= <- <-]|Hin]%elem_of_cons.
  - by rewrite decide_True.
  - rewrite decide_False; [by apply IH|]. intros ->.
    apply Hk, list_elem_of_fmap. by exists (u, c).
Qed.

Lemma infer_teams_fixed df teams :
  pass df teams = (teams, false) → infer_teams df teams = Some teams.
Proof. intros Hp. unfold infer_teams. simpl. by rewrite Hp. Qed.
End engine_extras.

Section engine_laws.
Implicit Types (teams seed final : Teams) (df : list Row) (u : string).
Implicit Types (row : Row) (team : Team) (c : Counts) (ev : Evidence).

(** X1. When every row has both endpoints seeded or both without a team, no
    row votes and [infer_teams] returns the seed as it is, after one pass;
    so it does on a data frame without rows, and with no seed at all. *)
Theorem X1_nothing_to_infer :
  (∀ df seed,
     (∀ row, row ∈ df →
        (is_Some (seed !! Attacker row) ↔ is_Some (seed !! Victim row))) →
     collect seed df = [] ∧ infer_loop 1 df seed = Some seed ∧
     infer_teams df seed = Some seed) ∧
  (∀ seed, infer_teams [] seed = Some seed) ∧
  (∀ df, infer_teams df ∅ = Some ∅).
Proof.
  assert (∀ df seed,
    (∀ row, row ∈ df →
       (is_Some (seed !! Attacker row) ↔ is_Some (seed !! Victim row))) →
    ∀ row, row ∈ df → vote_of seed row = None) as Hvote.
  { intros df seed Hrows row Hin. specialize (Hrows row Hin).
    unfold vote_of.
    destruct (seed !! Attacker row) eqn:Ha, (seed !! Victim row) eqn:Hv;
      try done.
    - destruct Hrows as [H _]. by destruct H as [? [=]].
    - destruct Hrows as [_ H]. by destruct H as [? [=]]. }
  split_and!.
  - intros df seed Hrows. pose proof (Hvote df seed Hrows) as Hno.
    pose proof (pass_no_vote df seed Hno) as Hp. split_and!.
    + destruct (collect seed df) as [|[k c] ev] eqn:Hev; [done|].
      assert (ev_lookup k (collect seed df) = Some c) as Hl
        by (rewrite Hev; simpl; by rewrite decide_True).
      rewrite ev_lookup_collect in Hl.
      apply tally_Some_row in Hl as (row & team & Hin & Hv).
      by rewrite (Hno row Hin) in Hv.
    + simpl. by rewrite Hp.
    + by apply infer_teams_fixed.
  - intros seed. apply infer_teams_fixed, pass_no_vote.
    by intros row ?%elem_of_nil.
  - intros df. apply infer_teams_fixed, pass_no_vote.
    intros row _. unfold vote_of. by rewrite !lookup_empty.
Qed.

(** X2. The label state that [infer_teams] returns is a fixpoint: no entry
    of the evidence collected from it matches a rule of the commit step, a
    pass over it adds nothing, and [infer_teams] run on it returns it
    again. *)
Theorem X2_result_is_fixpoint (df : list Row) (seed : Teams) :
  ∃ final,
    infer_teams df seed = Some final ∧
    Forall (λ kc, commit_rule kc.2 = None) (collect final df) ∧
    pass df final = (final, false) ∧
    infer_teams df final = Some final.
Proof.
  destruct (infer_teams_run df seed) as (k & final & _ & _ & _ & Hfix & _ & Hrun).
  exists final. split_and!; [done | | done | by apply infer_teams_fixed].
  apply Forall_forall. intros [w c] Hin. simpl.
  destruct (commit_rule c) as [team|] eqn:Hc; [|done]. exfalso.
  assert (w ∈ (collect final df).*1) as Hkey
    by (apply list_elem_of_fmap; by exists (w, c)).
  pose proof (collect_keys _ _ _ Hkey) as [Hnone _].
  pose proof (ev_lookup_elem _ _ _ (NoDup_collect final df) Hin) as Hl.
  pose proof (pass_lookup df final w) as Hp.
  rewrite Hfix, Hnone, <-ev_lookup_collect, Hl in Hp. simpl in Hp.
  congruence.
Qed.
End engine_laws.

Section row_order.
Implicit Types (teams seed : Teams) (df : list Row) (u : string).

Lemma votes_permutation teams df df' u team :
  df ≡ₚ df' → votes teams df u team = votes teams df' u team.
Proof. intros Hperm. unfold votes. by rewrite Hperm. Qed.

Lemma pass_permutation teams df df' :
  df ≡ₚ df' → pass df teams = pass df' teams.
Proof.
  intros Hperm.
  assert ((pass df teams).1 = (pass df' teams).1) as H1.
  { apply map_eq. intros u. rewrite !pass_lookup. unfold tally.
    by rewrite !(votes_permutation teams df df'). }
  apply injective_projections; [done|].
  by rewrite !pass_changed, H1.
Qed.

(** X3. The order of the rows of the data frame is irrelevant: on a
    reordered data frame every pass commits the same labels and
    [infer_teams] returns the same label state. *)
Theorem X3_row_order_irrelevant (df df' : list Row) (seed : Teams) :
  df ≡ₚ df' →
  (∀ teams u, ev_lookup u (collect teams df) = ev_lookup u (collect teams df')) ∧
  (∀ teams, pass df teams = pass df' teams) ∧
  infer_teams df seed = infer_teams df' seed.
Proof.
  intros Hperm. split_and!.
  - intros teams u. rewrite !ev_lookup_collect. unfold tally.
    by rewrite !(votes_permutation teams df df').
  - intros teams. by apply pass_permutation.
  - apply infer_teams_ext. intros t. by apply pass_permutation.
Qed.
End row_order.

Section team_symmetry.
Implicit Types (teams seed : Teams) (df : list Row) (u : string).

Lemma opposite_involutive team : opposite (opposite team) = team.
Proof. by destruct team. Qed.

Lemma swap_teams_involutive teams : opposite <$> (opposite <$> teams) = teams.
Proof.
  apply map_eq. intros u. rewrite !lookup_fmap.
  destruct (teams !! u); simpl; [by rewrite opposite_involutive | done].
Qed.

Lemma vote_of_swap teams row :
  vote_of (opposite <$> teams) row =
  (λ v, (v.1, opposite v.2)) <$> vote_of teams row.
Proof.
  unfold vote_of. rewrite !lookup_fmap.
  by destruct (teams !! Attacker row), (teams !! Victim row).
Qed.

Lemma votes_swap teams df u team :
  votes (opposite <$> teams) df u team = votes teams df u (opposite team).
Proof.
  unfold votes. induction df as [|row df IH]; [done|].
  rewrite !filter_cons, vote_of_swap.
  destruct (vote_of teams row) as [[k t]|] eqn:Hv; simpl.
  - destruct (decide (Some (k, opposite t) = Some (u, team))) as [Heq|Hne].
    + injection Heq as -> <-.
      rewrite decide_True by (by rewrite opposite_involutive).
      simpl. by rewrite IH.
    + rewrite decide_False; [done|]. intros [= -> ->].
      by rewrite opposite_involutive in Hne.
  - repeat case_decide; done.
Qed.

Lemma tally_swap teams df u :
  tally (opposite <$> teams) df u = swap_counts <$> tally teams df u.
Proof.
  unfold tally. rewrite !votes_swap. simpl.
  repeat case_decide; try lia; done.
Qed.

Lemma commit_rule_swap c :
  commit_rule (swap_counts c) = opposite <$> commit_rule c.
Proof.
  destruct c as [r p]. unfold swap_counts. simpl.
  destruct (commit_rule (mkCounts r p)) as [[]|] eqn:Hc; simpl.
  - apply commit_rule_reindeer in Hc. apply commit_rule_penguin. lia.
  - apply commit_rule_penguin in Hc. apply commit_rule_reindeer. lia.
  - apply commit_rule_none in Hc. apply commit_rule_none. lia.
Qed.

Lemma pass_swap df teams :
  pass df (opposite <$> teams) =
  (opposite <$> (pass df teams).1, (pass df teams).2).
Proof.
  assert ((pass df (opposite <$> teams)).1 = opposite <$> (pass df teams).1)
    as H1.
  { apply map_eq. intros u.
    rewrite lookup_fmap, !pass_lookup, lookup_fmap, tally_swap.
    destruct (teams !! u); simpl; [done|].
    destruct (tally teams df u) as [c|]; simpl; [|done].
    apply commit_rule_swap. }
  apply injective_projections; [done|]. simpl.
  rewrite !pass_changed, H1. apply bool_decide_ext. split.
  - intros Hne Heq. apply Hne. by rewrite Heq.
  - intros Hne Heq. apply Hne.
    apply (f_equal (fmap opposite)) in Heq.
    by rewrite !swap_teams_involutive in Heq.
Qed.

Lemma infer_loop_swap n df seed :
  infer_loop n df (opposite <$> seed) =
  (λ t : Teams, opposite <$> t) <$> infer_loop n df seed.
Proof.
  revert seed. induction n as [|n IH]; intros seed; [done|].
  simpl. rewrite pass_swap.
  destruct (pass df seed) as [teams' []]; simpl; [apply IH | done].
Qed.

(** X4. The two teams are treated alike, although the chain tests Reindeer
    first: with the two team names exchanged in the seed, every pass and
    [infer_teams] give the same label states with the names exchanged. *)
Theorem X4_teams_symmetric (df : list Row) (seed : Teams) :
  (∀ c, commit_rule (swap_counts c) = opposite <$> commit_rule c) ∧
  (∀ teams, pass df (opposite <$> teams) =
            (opposite <$> (pass df teams).1, (pass df teams).2)) ∧
  infer_teams df (opposite <$> seed) =
  (λ t : Teams, opposite <$> t) <$> infer_teams df seed.
Proof.
  split_and!.
  - apply commit_rule_swap.
  - intros teams. apply pass_swap.
  - apply infer_loop_swap.
Qed.
End team_symmetry.

Section propagation.
Implicit Types (teams seed final : Teams) (df : list Row) (u : string).
Implicit Types (row : Row) (team : Team) (c : Counts).

(** X5. Labels only travel along rows: a user with a team in the label
    state that [infer_teams] returns is seeded or joined to a seeded user
    by a chain of rows, and a user in no row has the label of the seed or
    none. *)
Theorem X5_labels_follow_rows (df : list Row) (seed : Teams) :
  ∃ final,
    infer_teams df seed = Some final ∧
    (∀ u, is_Some (final !! u) → connected df seed u) ∧
    (∀ u, u ∉ participants df → final !! u = seed !! u).
Proof.
  destruct (infer_teams_run df seed) as (k & final & _ & Hf & _ & _ & _ & Hrun).
  exists final. split_and!; [done | |].
  - apply (infer_teams_invariant
             (λ t, ∀ u, is_Some (t !! u) → connected df seed u) df seed);
      [apply connected_seed | apply pass_connected | done].
  - intros u Hu.
    apply (infer_teams_invariant
             (λ t, t !! u = seed !! u) df seed final); [done | | done].
    intros t Ht. rewrite pass_lookup, <-Ht.
    destruct (t !! u); [done|].
    destruct (tally t df u) as [c|] eqn:Hc; [|done].
    by apply tally_Some in Hc as (_ & ? & _).
Qed.

Section cross_team.
Variable truth : string → Team.
Variable df : list Row.
Hypothesis Hcross :
  ∀ row, row ∈ df → truth (Victim row) = opposite (truth (Attacker row)).

(** Under labels that agree with [truth], every vote goes to the true team
    of the user. *)
Lemma vote_of_truth teams row u team :
  agrees truth teams → row ∈ df → vote_of teams row = Some (u, team) →
  team = truth u.
Proof.
  intros Hag Hin. specialize (Hcross row Hin). unfold vote_of.
  destruct (teams !! Attacker row) as [a|] eqn:Ha,
           (teams !! Victim row) as [v|] eqn:Hv; try done;
    intros [= <- <-].
  - apply Hag in Ha. by rewrite Hcross, Ha.
  - apply Hag in Hv. rewrite <-Hv, Hcross. by rewrite opposite_involutive.
Qed.

Lemma tally_truth teams u c :
  agrees truth teams → tally teams df u = Some c →
  commit_rule c = Some (truth u).
Proof.
  intros Hag Hc.
  assert (votes teams df u (opposite (truth u)) = 0) as Hzero.
  { apply votes_zero. intros row Hin Hv.
    apply (vote_of_truth _ _ _ _ Hag Hin) in Hv. by destruct (truth u). }
  unfold tally in Hc. case_decide as Hz; [done|]. injection Hc as <-.
  destruct (truth u); simpl in Hzero.
  - apply commit_rule_reindeer. lia.
  - apply commit_rule_penguin. lia.
Qed.

Lemma pass_agrees teams :
  agrees truth teams → agrees truth (pass df teams).1.
Proof.
  intros Hag u team. rewrite pass_lookup.
  destruct (teams !! u) as [t|] eqn:Hu.
  { intros [= <-]. by apply Hag. }
  destruct (tally teams df u) as [c|] eqn:Hc; [|done]. simpl.
  rewrite (tally_truth _ _ _ Hag Hc). by intros [= <-].
Qed.

(** In a fixpoint that agrees with [truth], the neighbours of a labelled
    user are labelled. *)
Lemma fixpoint_neighbour teams row u w :
  agrees truth teams → pass df teams = (teams, false) → row ∈ df →
  (u = Attacker row ∧ w = Victim row) ∨ (u = Victim row ∧ w = Attacker row) →
  is_Some (teams !! u) → is_Some (teams !! w).
Proof.
  intros Hag Hfix Hin Hends [t Hu].
  destruct (teams !! w) as [tw|] eqn:Hw; [by eexists|]. exfalso.
  assert (vote_of teams row = Some (w, opposite t)) as Hv.
  { unfold vote_of. destruct Hends as [[-> ->]|[-> ->]]; by rewrite Hu, Hw. }
  pose proof (votes_elem _ _ _ _ _ Hin Hv) as Hpos.
  destruct (tally teams df w) as [c|] eqn:Hc.
  - pose proof (pass_lookup df teams w) as Hp.
    rewrite Hfix in Hp. simpl in Hp. rewrite Hw, Hc in Hp. simpl in Hp.
    rewrite (tally_truth _ _ _ Hag Hc) in Hp. done.
  - unfold tally in Hc. case_decide; [|done]. destruct (opposite t); lia.
Qed.

Lemma exact_on_cross_team seed :
  agrees truth seed →
  ∃ final,
    infer_teams df seed = Some final ∧
    (∀ u team, final !! u = Some team → truth u = team) ∧
    (∀ u, connected df seed u → final !! u = Some (truth u)) ∧
    (∀ u, is_Some (final !! u) → connected df seed u).
Proof.
  intros Hseed.
  destruct (infer_teams_run df seed) as (k & final & _ & Hf & _ & Hfix & _ & Hrun).
  assert (agrees truth final) as Hag.
  { apply (infer_teams_invariant (agrees truth) df seed final);
      [done | apply pass_agrees | done]. }
  assert (seed ⊆ final) as Hsub by (by eapply infer_loop_mono).
  assert (∀ u, connected df seed u → is_Some (final !! u)) as Hconn.
  { induction 1 as [u [t Hu]|row Hin _ IH|row Hin _ IH].
    - exists t. by eapply lookup_weaken.
    - eapply (fixpoint_neighbour final row (Victim row)); eauto.
    - eapply (fixpoint_neighbour final row (Attacker row)); eauto. }
  exists final. split_and!; [done | done | |].
  - intros u [t Ht]%Hconn. by rewrite Ht, (Hag _ _ Ht).
  - apply (infer_teams_invariant
             (λ t, ∀ u, is_Some (t !! u) → connected df seed u) df seed);
      [apply connected_seed | apply pass_connected | done].
Qed.
End cross_team.

(** X6. When every row is between users of opposite true teams and every
    seed label is the true one, [infer_teams] labels exactly the users
    joined to a seeded user by a chain of rows, each with its true team. *)
Theorem X6_exact_on_cross_team
    (truth : string → Team) (df : list Row) (seed : Teams) :
  (∀ row, row ∈ df → truth (Victim row) = opposite (truth (Attacker row))) →
  (∀ u team, seed !! u = Some team → truth u = team) →
  ∃ final,
    infer_teams df seed = Some final ∧
    (∀ u team, final !! u = Some team → truth u = team) ∧
    (∀ u, connected df seed u → final !! u = Some (truth u)) ∧
    (∀ u, is_Some (final !! u) → connected df seed u).
Proof. intros Hcross Hseed. by apply exact_on_cross_team. Qed.
End propagation.

Section evidence_totals.
Implicit Types (teams : Teams) (df : list Row) (u : string) (ev : Evidence).

Lemma total_votes_add_vote u team ev :
  total_votes (add_vote u team ev) = S (total_votes ev).
Proof.
  unfold add_vote, total_votes. induction ev as [|[k c] ev IH].
  - simpl. rewrite decide_True by done. destruct team; simpl; lia.
  - cbn [setdefault]. destruct (decide (k = u)) as [->|Hne].
    + cbn [increment]. rewrite decide_True by done.
      destruct team; simpl; lia.
    + cbn [increment]. rewrite decide_False by done.
      cbn [sum_list_with]. rewrite IH. simpl. lia.
Qed.

Lemma one_labelled_vote teams row :
  one_labelled teams row = true ↔ is_Some (vote_of teams row).
Proof.
  unfold one_labelled, vote_of.
  destruct (teams !! Attacker row) as [a|], (teams !! Victim row) as [v|];
    repeat case_bool_decide; simpl; split; intros Hx;
    try done; try (by eexists); try (by destruct Hx);
    exfalso; eauto using is_Some_None.
Qed.

Lemma total_votes_collect teams df :
  total_votes (collect teams df) =
  length (filter (λ row, one_labelled teams row = true) df).
Proof.
  induction df as [|row df IH] using rev_ind; [done|].
  rewrite collect_snoc, scan_row_vote, filter_app, length_app, <-IH.
  rewrite filter_cons, filter_nil.
  pose proof (one_labelled_vote teams row) as Hv.
  destruct (vote_of teams row) as [[k team]|].
  - rewrite decide_True by (apply Hv; by eexists).
    rewrite total_votes_add_vote. simpl. lia.
  - rewrite decide_False; [simpl; lia|].
    intros H. apply Hv in H. by destruct H.
Qed.

(** X7. The dictionary built by a sweep has one entry per key, only for
    users of the data frame without a team, each holding at least one vote
    (the [continue] of the commit loop never fires on it, and counts
    [(0, 0)] never occur); its counters sum to the number of rows with
    exactly one labelled endpoint, one vote per such row. *)
Theorem X7_evidence_entries (teams : Teams) (df : list Row) :
  NoDup (collect teams df).*1 ∧
  Forall (λ kc, teams !! kc.1 = None ∧ kc.1 ∈ participants df ∧
                0 < nReindeer kc.2 + nPenguin kc.2) (collect teams df) ∧
  total_votes (collect teams df) =
    length (filter (λ row, one_labelled teams row = true) df) ∧
  total_votes (collect teams df) ≤ length df.
Proof.
  split_and!.
  - apply NoDup_collect.
  - apply Forall_forall. intros [u c] Hin. simpl.
    pose proof (ev_lookup_elem _ _ _ (NoDup_collect teams df) Hin) as Hl.
    rewrite ev_lookup_collect in Hl. by apply tally_Some in Hl.
  - apply total_votes_collect.
  - rewrite total_votes_collect. apply length_filter.
Qed.
End evidence_totals.

Section table_totals.
Implicit Types (df : list Row) (u : string) (solid_teams : Teams).

Lemma sum_count_nil (key : Row → string) (l : list string) :
  sum_list_with (λ u, length (filter (λ r, key r = u) [])) l = 0.
Proof. induction l as [|x l IH]; [done|]. cbn [sum_list_with]. by rewrite IH. Qed.

Lemma sum_count_cons (key : Row → string) (l : list string) row df :
  NoDup l →
  sum_list_with (λ u, length (filter (λ r, key r = u) (row :: df))) l =
  (if decide (key row ∈ l) then 1 else 0) +
  sum_list_with (λ u, length (filter (λ r, key r = u) df)) l.
Proof.
  induction l as [|x l IH]; intros Hnd; [done|].
  apply NoDup_cons in Hnd as [Hx Hnd]. cbn [sum_list_with].
  rewrite IH by done. rewrite filter_cons.
  destruct (decide (key row = x)) as [<-|Hne].
  - rewrite (decide_True (P := key row ∈ key row :: l))
      by apply list_elem_of_here.
    rewrite (decide_False (P := key row ∈ l)) by done. simpl. lia.
  - destruct (decide (key row ∈ l)) as [Hin|Hnin].
    + rewrite (decide_True (P := key row ∈ x :: l))
        by (by apply list_elem_of_further). lia.
    + rewrite (decide_False (P := key row ∈ x :: l)); [lia|].
      rewrite not_elem_of_cons. done.
Qed.

(** The counts of distinct users add up to the rows they account for. *)
Lemma sum_count_by (key : Row → string) (l : list string) df :
  NoDup l →
  sum_list_with (λ u, length (filter (λ r, key r = u) df)) l =
  length (filter (λ row, key row ∈ l) df).
Proof.
  intros Hnd. induction df as [|row df IH]; [apply sum_count_nil|].
  rewrite sum_count_cons, IH, filter_cons by done.
  case_decide; simpl; lia.
Qed.

Lemma sum_list_with_fmap {A B} (f : B → nat) (g : A → B) (l : list A) :
  sum_list_with f (g <$> l) = sum_list_with (f ∘ g) l.
Proof. induction l as [|x l IH]; [done|]. rewrite fmap_cons. simpl. by rewrite IH. Qed.

Lemma sum_list_with_ext_in {A} (f g : A → nat) (l : list A) :
  (∀ x, x ∈ l → f x = g x) → sum_list_with f l = sum_list_with g l.
Proof.
  induction l as [|x l IH]; intros Hfg; [done|]. simpl.
  rewrite (Hfg x) by apply list_elem_of_here.
  rewrite IH; [done|]. intros y Hy. by apply Hfg, list_elem_of_further.
Qed.

Lemma filter_length_ext_in {A} (P Q : A → Prop)
    `{!∀ x, Decision (P x)} `{!∀ x, Decision (Q x)} (l : list A) :
  (∀ x, x ∈ l → P x ↔ Q x) → length (filter P l) = length (filter Q l).
Proof.
  induction l as [|x l IH]; intros HPQ; [done|].
  rewrite !filter_cons.
  pose proof (HPQ x (list_elem_of_here _ _)) as Hx.
  assert (length (filter P l) = length (filter Q l)) as Hl.
  { apply IH. intros y Hy. by apply HPQ, list_elem_of_further. }
  destruct (decide (P x)), (decide (Q x)); simpl; try tauto; by rewrite Hl.
Qed.

Lemma filter_length_all {A} (P : A → Prop) `{!∀ x, Decision (P x)}
    (l : list A) :
  (∀ x, x ∈ l → P x) → length (filter P l) = length l.
Proof.
  induction l as [|x l IH]; intros HP; [done|].
  rewrite filter_cons, decide_True by apply HP, list_elem_of_here.
  simpl. f_equal. apply IH. intros y Hy. by apply HP, list_elem_of_further.
Qed.

(** X8. The two count columns of the table add up to the attacks they
    account for: column Attacks Made sums to the number of rows whose
    attacker has a team, column Attacks Received to the number of rows
    whose victim has a team; neither exceeds the number of rows, which both
    reach when every user of the data frame has a team. *)
Theorem X8_table_totals (df : list Row) (solid_teams : Teams) :
  sum_list_with AttacksMade (build_stats df solid_teams) =
    length (filter (λ row, is_Some (solid_teams !! Attacker row)) df) ∧
  sum_list_with AttacksReceived (build_stats df solid_teams) =
    length (filter (λ row, is_Some (solid_teams !! Victim row)) df) ∧
  sum_list_with AttacksMade (build_stats df solid_teams) ≤ length df ∧
  sum_list_with AttacksReceived (build_stats df solid_teams) ≤ length df ∧
  ((∀ u, u ∈ participants df → is_Some (solid_teams !! u)) →
   sum_list_with AttacksMade (build_stats df solid_teams) = length df ∧
   sum_list_with AttacksReceived (build_stats df solid_teams) = length df).
Proof.
  pose proof (elem_of_build_stats df solid_teams) as Hrows.
  assert (NoDup (User <$> build_stats df solid_teams)) as Hnd
    by (rewrite build_stats_users; apply NoDup_filter, NoDup_remove_dups).
  assert (∀ u, u ∈ User <$> build_stats df solid_teams ↔
               u ∈ participants df ∧ is_Some (solid_teams !! u)) as Husers.
  { intros u. rewrite build_stats_users, list_elem_of_filter.
    rewrite elem_of_remove_dups, elem_of_app, !elem_of_remove_dups.
    rewrite participants_columns, <-not_eq_None_Some. tauto. }
  assert (sum_list_with AttacksMade (build_stats df solid_teams) =
          length (filter (λ row, is_Some (solid_teams !! Attacker row)) df))
    as Hmade.
  { rewrite (sum_list_with_ext_in AttacksMade (outgoing df ∘ User))
      by (intros s Hs; by apply Hrows in Hs as (_ & _ & -> & _)).
    rewrite <-sum_list_with_fmap. unfold outgoing.
    rewrite (sum_count_by Attacker) by done.
    apply filter_length_ext_in. intros row Hin. rewrite Husers.
    split; [tauto|]. intros Hsome. split; [|done].
    apply elem_of_participants. eauto. }
  assert (sum_list_with AttacksReceived (build_stats df solid_teams) =
          length (filter (λ row, is_Some (solid_teams !! Victim row)) df))
    as Hrecv.
  { rewrite (sum_list_with_ext_in AttacksReceived (incoming df ∘ User))
      by (intros s Hs; by apply Hrows in Hs as (_ & _ & _ & ->)).
    rewrite <-sum_list_with_fmap. unfold incoming.
    rewrite (sum_count_by Victim) by done.
    apply filter_length_ext_in. intros row Hin. rewrite Husers.
    split; [tauto|]. intros Hsome. split; [|done].
    apply elem_of_participants. eauto. }
  split_and!; [done | done | | |].
  - rewrite Hmade. apply length_filter.
  - rewrite Hrecv. apply length_filter.
  - intros Hall. rewrite Hmade, Hrecv. split.
    + apply filter_length_all. intros row Hin.
      apply Hall, elem_of_participants. eauto.
    + apply filter_length_all. intros row Hin.
      apply Hall, elem_of_participants. eauto.
Qed.
End table_totals.

(** ** [normalize_user] *)

Section stripping.
Implicit Types (s t pre post : string) (c : Ascii.ascii).

Lemma append_cons c s t : String c s +:+ t = String c (s +:+ t).
Proof. reflexivity. Qed.

Lemma append_nil_l t : "" +:+ t = t.
Proof. reflexivity. Qed.

Lemma append_nil_r s : s +:+ "" = s.
Proof. induction s as [|c s IH]; [done|]. by rewrite append_cons, IH. Qed.

Lemma append_eq_nil s t : s +:+ t = "" → s = "" ∧ t = "".
Proof. destruct s; [by rewrite append_nil_l | by rewrite append_cons]. Qed.

Section any_class.
Variable sp : Ascii.ascii → bool.

Lemma all_by_append s t : all_by sp (s +:+ t) = all_by sp s && all_by sp t.
Proof.
  induction s as [|c s IH]; [done|].
  rewrite append_cons. cbn [all_by]. by rewrite IH, andb_assoc.
Qed.

Lemma lstrip_by_all s : all_by sp s = true → lstrip_by sp s = "".
Proof.
  induction s as [|c s IH]; [done|]. cbn [all_by lstrip_by].
  intros [Hc Hs]%andb_true_iff. rewrite Hc. by apply IH.
Qed.

Lemma lstrip_by_decompose s :
  ∃ pre, s = pre +:+ lstrip_by sp s ∧ all_by sp pre = true.
Proof.
  induction s as [|c s (pre & Hs & Hpre)]; [by exists ""|]. cbn [lstrip_by].
  destruct (sp c) eqn:Hc.
  - exists (String c pre). rewrite append_cons, <-Hs. cbn [all_by].
    by rewrite Hc, Hpre.
  - by exists "".
Qed.

Lemma lstrip_by_head s c t : lstrip_by sp s = String c t → sp c = false.
Proof.
  induction s as [|a s IH]; [done|]. cbn [lstrip_by].
  destruct (sp a) eqn:Ha; [done|]. by intros [= <- _].
Qed.

Lemma lstrip_by_append s t :
  lstrip_by sp (s +:+ t) =
  if all_by sp s then lstrip_by sp t else lstrip_by sp s +:+ t.
Proof.
  induction s as [|c s IH]; [done|].
  rewrite append_cons. cbn [lstrip_by all_by].
  destruct (sp c); [by rewrite IH | done].
Qed.

Lemma rstrip_by_cons_out c s :
  sp c = false → rstrip_by sp (String c s) = String c (rstrip_by sp s).
Proof. intros Hc. cbn [rstrip_by]. rewrite Hc. by destruct (rstrip_by sp s). Qed.

Lemma rstrip_by_all s : all_by sp s = true → rstrip_by sp s = "".
Proof.
  induction s as [|c s IH]; [done|]. cbn [all_by rstrip_by].
  intros [Hc Hs]%andb_true_iff. by rewrite (IH Hs), Hc.
Qed.

Lemma rstrip_by_decompose s :
  ∃ post, s = rstrip_by sp s +:+ post ∧ all_by sp post = true.
Proof.
  induction s as [|c s (post & Hs & Hpost)]; [by exists ""|]. cbn [rstrip_by].
  destruct (rstrip_by sp s) as [|b u] eqn:Hr.
  - rewrite append_nil_l in Hs. subst s. destruct (sp c) eqn:Hc.
    + exists (String c post). split; [done|]. cbn [all_by].
      by rewrite Hc.
    + by exists post.
  - exists post. split; [|done]. by rewrite append_cons, <-Hs.
Qed.

Lemma rstrip_by_append_all s post :
  all_by sp post = true → rstrip_by sp (s +:+ post) = rstrip_by sp s.
Proof.
  intros Hpost. induction s as [|c s IH].
  - rewrite append_nil_l. by rewrite rstrip_by_all.
  - rewrite append_cons. cbn [rstrip_by]. by rewrite IH.
Qed.

Lemma rstrip_by_last s t c :
  rstrip_by sp s = t +:+ String c "" → sp c = false.
Proof.
  revert t. induction s as [|a s IH]; intros t.
  { cbn [rstrip_by]. by destruct t. }
  cbn [rstrip_by]. destruct (rstrip_by sp s) as [|b u] eqn:Hr.
  - destruct (sp a) eqn:Ha; [by destruct t|].
    destruct t as [|b t].
    + rewrite append_nil_l. by intros [= <-].
    + rewrite append_cons. intros [= _ Ht]. symmetry in Ht.
      by apply append_eq_nil in Ht as [_ ?].
  - destruct t as [|b' t].
    + rewrite append_nil_l. done.
    + rewrite append_cons. intros [= _ Ht]. by apply (IH t).
Qed.

Lemma strip_by_decompose s :
  ∃ pre post, s = pre +:+ strip_by sp s +:+ post ∧
              all_by sp pre = true ∧ all_by sp post = true.
Proof.
  destruct (lstrip_by_decompose s) as (pre & Hs & Hpre).
  destruct (rstrip_by_decompose (lstrip_by sp s)) as (post & Hl & Hpost).
  exists pre, post. unfold strip_by. by rewrite <-Hl, <-Hs.
Qed.

Lemma strip_by_head s c t : strip_by sp s = String c t → sp c = false.
Proof.
  unfold strip_by. destruct (lstrip_by sp s) as [|a u] eqn:Hl; [done|].
  pose proof (lstrip_by_head _ _ _ Hl) as Ha.
  rewrite rstrip_by_cons_out by done. by intros [= <- _].
Qed.

Lemma strip_by_last s t c : strip_by sp s = t +:+ String c "" → sp c = false.
Proof. apply rstrip_by_last. Qed.

Lemma strip_by_padded pre s post :
  all_by sp pre = true → all_by sp post = true →
  strip_by sp (pre +:+ s +:+ post) = strip_by sp s.
Proof.
  intros Hpre Hpost. unfold strip_by.
  rewrite lstrip_by_append, Hpre, lstrip_by_append.
  destruct (all_by sp s) eqn:Hs.
  - by rewrite !lstrip_by_all.
  - by apply rstrip_by_append_all.
Qed.

Lemma strip_by_all s : all_by sp s = true → strip_by sp s = "".
Proof. intros Hs. unfold strip_by. by rewrite lstrip_by_all. Qed.

Lemma strip_by_nil_all s : strip_by sp s = "" → all_by sp s = true.
Proof.
  intros Hs. destruct (strip_by_decompose s) as (pre & post & Heq & Hpre & Hpost).
  rewrite Hs, append_nil_l in Heq. by rewrite Heq, all_by_append, Hpre, Hpost.
Qed.
End any_class.

Lemma strip_decompose s :
  ∃ pre post, s = pre +:+ strip s +:+ post ∧
              all_space pre = true ∧ all_space post = true.
Proof. apply (strip_by_decompose isspace). Qed.

Lemma strip_head s c t : strip s = String c t → isspace c = false.
Proof. apply (strip_by_head isspace). Qed.

Lemma strip_last s t c : strip s = t +:+ String c "" → isspace c = false.
Proof. apply (strip_by_last isspace). Qed.

Lemma strip_padded pre s post :
  all_space pre = true → all_space post = true →
  strip (pre +:+ s +:+ post) = strip s.
Proof. apply (strip_by_padded isspace). Qed.

Lemma strip_idempotent s : strip (strip s) = strip s.
Proof.
  destruct (strip_decompose s) as (pre & post & Hs & Hpre & Hpost).
  rewrite Hs at 2. by rewrite strip_padded.
Qed.

Lemma normalize_rows_idempotent (df : list Row) :
  normalize_rows (normalize_rows df) = normalize_rows df.
Proof.
  unfold normalize_rows. rewrite <-list_fmap_compose.
  apply list_fmap_ext. intros _ row _. simpl.
  by rewrite !strip_idempotent.
Qed.

(** X9. [normalize_user] returns a missing name as it is, and of a name the
    part left when the whitespace at both ends is cut off: the name is that
    part between two runs of whitespace, and the part neither starts nor
    ends with a whitespace character; whitespace inside is kept. *)
Theorem X9_normalize_user_strips :
  normalize_user None = None ∧
  ∀ s, ∃ pre t post,
    normalize_user (Some s) = Some t ∧
    s = pre +:+ t +:+ post ∧
    all_space pre = true ∧ all_space post = true ∧
    (∀ c u, t = String c u → isspace c = false) ∧
    (∀ u c, t = u +:+ String c "" → isspace c = false).
Proof.
  split; [done|]. intros s.
  destruct (strip_decompose s) as (pre & post & Hs & Hpre & Hpost).
  exists pre, (strip s), post. split_and!; try done.
  - apply strip_head.
  - apply strip_last.
Qed.

(** X10. Names that differ only by whitespace at the ends normalize to the
    same key, and normalizing what is normalized changes nothing, for one
    name and for the two name columns of the data frame. *)
Theorem X10_normalize_user_canonical :
  (∀ pre s post,
     all_space pre = true → all_space post = true →
     normalize_user (Some (pre +:+ s +:+ post)) = normalize_user (Some s)) ∧
  (∀ x, normalize_user (normalize_user x) = normalize_user x) ∧
  (∀ df, normalize_rows (normalize_rows df) = normalize_rows df).
Proof.
  split_and!.
  - intros pre s post Hpre Hpost. simpl. by rewrite strip_padded.
  - intros [s|]; [|done]. simpl. by rewrite strip_idempotent.
  - intros df. unfold normalize_rows. rewrite <-list_fmap_compose.
    apply list_fmap_ext. intros _ row _. simpl.
    by rewrite !strip_idempotent.
Qed.
End stripping.

(** ** Seeding and input checks *)

Section seeding.
Implicit Types (reindeer penguin : gset string) (u : string).

Lemma seed_teams_lookup reindeer penguin u :
  seed_teams reindeer penguin !! u =
  if decide (u ∈ penguin) then Some Penguin
  else if decide (u ∈ reindeer) then Some Reindeer else None.
Proof.
  unfold seed_teams, dict_update.
  rewrite lookup_union, !lookup_gset_to_gmap.
  destruct (decide (u ∈ penguin)), (decide (u ∈ reindeer)).
  - by rewrite !option_guard_True.
  - by rewrite option_guard_True, option_guard_False.
  - by rewrite option_guard_False, option_guard_True.
  - by rewrite !option_guard_False.
Qed.

(** X11. The seed of [main] gives every listed user a team, with Penguin
    for a user listed in both sets, and no team to any other user; and the
    listed users have these teams in the label state [infer_teams] returns,
    whatever the data frame holds. *)
Theorem X11_seed_teams (reindeer penguin : gset string) (df : list Row) :
  (∀ u, seed_teams reindeer penguin !! u =
        if decide (u ∈ penguin) then Some Penguin
        else if decide (u ∈ reindeer) then Some Reindeer else None) ∧
  dom (seed_teams reindeer penguin) = reindeer ∪ penguin ∧
  ∃ final,
    infer_teams df (seed_teams reindeer penguin) = Some final ∧
    (∀ u, u ∈ penguin → final !! u = Some Penguin) ∧
    (∀ u, u ∈ reindeer → u ∉ penguin → final !! u = Some Reindeer).
Proof.
  split_and!.
  - apply seed_teams_lookup.
  - unfold seed_teams, dict_update.
    rewrite dom_union_L, !dom_gset_to_gmap. apply (comm_L (∪)).
  - destruct (infer_teams_run df (seed_teams reindeer penguin))
      as (k & final & _ & _ & _ & _ & Hloop & Hrun).
    pose proof (infer_loop_mono _ _ _ _ Hloop) as Hsub.
    exists final. split_and!; [done | |].
    + intros u Hu. eapply lookup_weaken; [|done].
      rewrite seed_teams_lookup. by rewrite decide_True.
    + intros u Hr Hp. eapply lookup_weaken; [|done].
      rewrite seed_teams_lookup. by rewrite decide_False, decide_True.
Qed.

(** X12. The checks of [main]: a missing file raises [FileNotFoundError]
    before the columns are looked at; otherwise the sheet passes exactly
    when it has the three columns Attacker, Victim and Time, in any order
    and among any others, and the [ValueError] raised when it does not
    names exactly the required columns that the sheet lacks. *)
Theorem X12_check_input (columns : list string) :
  check_input false columns = Some FileNotFoundError ∧
  (check_input true columns = None ↔
     "Attacker" ∈ columns ∧ "Victim" ∈ columns ∧ "Time" ∈ columns) ∧
  (∀ missing,
     check_input true columns = Some (ValueError missing) →
     missing ≠ ∅ ∧
     ∀ c, c ∈ missing ↔
          (c = "Attacker" ∨ c = "Victim" ∨ c = "Time") ∧ c ∉ columns) ∧
  check_input true columns ≠ Some FileNotFoundError ∧
  (∀ columns', (∀ c, c ∈ columns ↔ c ∈ columns') →
     check_input true columns' = check_input true columns).
Proof.
  assert (∀ cols c, c ∈ required_cols ∖ list_to_set cols ↔
            (c = "Attacker" ∨ c = "Victim" ∨ c = "Time") ∧ c ∉ cols)
    as Hmissing.
  { intros cols c. unfold required_cols.
    rewrite elem_of_difference, elem_of_list_to_set.
    rewrite !elem_of_union, !elem_of_singleton. tauto. }
  unfold check_input. simpl. split_and!.
  - done.
  - case_decide as Hm.
    + split; [done|]. intros (Ha & Hv & Ht). exfalso. apply Hm.
      apply set_eq. intros c. rewrite Hmissing.
      split; [|by intros ?%not_elem_of_empty].
      intros [[->|[->| ->]] Hn]; done.
    + split; [|done]. intros _.
      assert (required_cols ∖ list_to_set columns = ∅) as He.
      { destruct (decide (required_cols ∖ list_to_set columns = ∅)); [done|].
        by destruct Hm. }
      assert (∀ c, (c = "Attacker" ∨ c = "Victim" ∨ c = "Time") →
                   c ∈ columns) as Hall.
      { intros c Hc. destruct (decide (c ∈ columns)) as [|Hn]; [done|].
        assert (c ∈ required_cols ∖ list_to_set columns) as Hin
          by (by apply Hmissing).
        rewrite He in Hin. by apply not_elem_of_empty in Hin. }
      split_and!; apply Hall; auto.
  - intros missing. case_decide as Hm; [|done]. intros [= <-].
    split; [done|]. apply Hmissing.
  - by case_decide.
  - intros columns' Hsame.
    assert (required_cols ∖ list_to_set columns' =
            required_cols ∖ list_to_set columns) as ->; [|done].
    apply set_eq. intros c. rewrite !Hmissing, Hsame. done.
Qed.
End seeding.

(** ** The highlight column *)

Section highlight.
Implicit Types (pat s t : string).

Lemma prefix_spec pat s :
  String.prefix pat s = true ↔ ∃ post, s = pat +:+ post.
Proof.
  revert s. induction pat as [|a pat IH]; intros s.
  - destruct s; simpl; (split; [intros _; by eexists | done]).
  - destruct s as [|b s]; simpl.
    + split; [done | by intros [post ?]].
    + destruct (Ascii.ascii_dec a b) as [->|Hne].
      * rewrite IH. split.
        -- intros [post ->]. by exists post.
        -- intros [post [= ->]]. by exists post.
      * split; [done|]. intros [post [= ? _]]. done.
Qed.

Lemma contains_spec pat s :
  contains pat s = true ↔ ∃ pre post, s = pre +:+ pat +:+ post.
Proof.
  induction s as [|c s IH]; cbn [contains].
  - rewrite orb_false_r, prefix_spec. split.
    + intros [post ->]. by exists "", post.
    + intros (pre & post & Hs). symmetry in Hs.
      apply append_eq_nil in Hs as [-> [-> ->]%append_eq_nil].
      by exists "".
  - rewrite orb_true_iff, prefix_spec, IH. split.
    + intros [[post ->]|(pre & post & ->)].
      * by exists "", post.
      * by exists (String c pre), post.
    + intros ([|a pre] & post & Hs).
      * left. by exists post.
      * right. injection Hs as _ ->. by exists pre, post.
Qed.

(** X13. The column Highlight has one flag per user; the flag is set
    exactly when [HIGHLIGHT_USER] is a non-empty string that occurs in the
    name of the user, letter case included. With [None] or the empty string
    no user is flagged, although the empty string occurs in every name. *)
Theorem X13_highlight_column (highlight_user : option string)
    (users : list string) :
  length (highlight_column highlight_user users) = length users ∧
  (∀ i u, users !! i = Some u →
     ∃ flag, highlight_column highlight_user users !! i = Some flag ∧
       (flag = true ↔
        ∃ pat, highlight_user = Some pat ∧ pat ≠ "" ∧
               ∃ pre post, u = pre +:+ pat +:+ post)) ∧
  highlight_column (Some "") users = highlight_column None users ∧
  (∀ pat, pat ≠ "" → pat ∈ users →
     true ∈ highlight_column (Some pat) users).
Proof.
  split_and!.
  - unfold highlight_column. destruct highlight_user as [pat|];
      [case_decide|]; by rewrite length_fmap.
  - intros i u Hu. unfold highlight_column.
    destruct highlight_user as [pat|]; [case_decide as Hp|];
      rewrite list_lookup_fmap, Hu; simpl; eexists; (split; [done|]).
    + split; [done|]. intros (pat' & [= <-] & Hne & _). done.
    + rewrite contains_spec. split.
      * intros Hc. by exists pat.
      * by intros (pat' & [= <-] & _ & Hc).
    + split; [done|]. by intros (pat' & [=] & _).
  - done.
  - intros pat Hne Hin. unfold highlight_column.
    rewrite decide_False by done. apply list_elem_of_fmap.
    exists pat. split; [|done]. symmetry. apply contains_spec.
    exists "", "". by rewrite append_nil_l, append_nil_r.
Qed.
End highlight.

(** ** Further instances *)

(** Rows between two seeded users and between two users without a team. *)
Lemma X1_witness :
  collect ex_seed ex_still_df = [] ∧
  infer_loop 1 ex_still_df ex_seed = Some ex_seed ∧
  infer_teams ex_still_df ex_seed = Some ex_seed.
Proof.
  apply (proj1 X1_nothing_to_infer ex_still_df ex_seed).
  intros row Hin.
  repeat (apply elem_of_cons in Hin as [->|Hin];
          [vm_compute; split; intros [? [=]]; by eexists|]).
  by apply elem_of_nil in Hin.
Defined.

(** The two rows of the chain, exchanged. *)
Lemma X3_witness :
  infer_teams ex_chain_df ex_chain_seed =
  infer_teams [mkRow "W" "Z"; mkRow "X" "Z"] ex_chain_seed.
Proof.
  apply (X3_row_order_irrelevant ex_chain_df
           [mkRow "W" "Z"; mkRow "X" "Z"] ex_chain_seed).
  apply perm_swap.
Defined.

(** The chain: Z is hit by the seeded reindeer, W hits Z. *)
Lemma X6_witness :
  ∃ final,
    infer_teams ex_chain_df ex_chain_seed = Some final ∧
    (∀ u team, final !! u = Some team → ex_chain_truth u = team) ∧
    (∀ u, connected ex_chain_df ex_chain_seed u →
          final !! u = Some (ex_chain_truth u)) ∧
    (∀ u, is_Some (final !! u) → connected ex_chain_df ex_chain_seed u).
Proof.
  apply (X6_exact_on_cross_team ex_chain_truth ex_chain_df ex_chain_seed).
  - intros row Hin.
    repeat (apply elem_of_cons in Hin as [->|Hin]; [reflexivity|]).
    by apply elem_of_nil in Hin.
  - intros u team. unfold ex_chain_seed.
    intros [[<- <-]|[_ Hempty]]%lookup_insert_Some; [reflexivity|].
    by rewrite lookup_empty in Hempty.
Defined.

(** ** [main] end to end *)

Section end_to_end.
Implicit Types (df : list Row) (u : string).

Lemma outgoing_normalized df u :
  outgoing (normalize_rows df) u =
  length (filter (λ row, strip (Attacker row) = u) df).
Proof.
  unfold outgoing, normalize_rows. induction df as [|row df IH]; [done|].
  rewrite fmap_cons, !filter_cons. simpl.
  case_decide; simpl; by rewrite IH.
Qed.

Lemma incoming_normalized df u :
  incoming (normalize_rows df) u =
  length (filter (λ row, strip (Victim row) = u) df).
Proof.
  unfold incoming, normalize_rows. induction df as [|row df IH]; [done|].
  rewrite fmap_cons, !filter_cons. simpl.
  case_decide; simpl; by rewrite IH.
Qed.

Lemma participants_normalized df u :
  u ∈ participants (normalize_rows df) ↔
  ∃ row, row ∈ df ∧ (u = strip (Attacker row) ∨ u = strip (Victim row)).
Proof.
  rewrite elem_of_participants. unfold normalize_rows. split.
  - intros (row' & (row & -> & Hin)%list_elem_of_fmap & Hu). by exists row.
  - intros (row & Hin & Hu).
    exists (mkRow (strip (Attacker row)) (strip (Victim row))).
    split; [|done]. apply list_elem_of_fmap. by exists row.
Qed.

(** X14. From the rows of the sheet to the table, for rows with their names
    present: [main] produces a table whatever the rows hold; it has one row
    per user, under its normalized name; the counts
    of a row are the numbers of sheet rows whose attacker, respectively
    victim, normalizes to that name, so the whitespace variants of a name
    are merged; and a user of the two known sets that is in some row of the
    sheet, under any whitespace variant of its name, has its row with its
    seeded team. *)
Theorem X14_main_table (df : list Row) :
  ∃ table,
    main_table df = Some table ∧
    NoDup (User <$> table) ∧
    (∀ s, s ∈ table →
       strip (User s) = User s ∧
       AttacksMade s =
         length (filter (λ row, strip (Attacker row) = User s) df) ∧
       AttacksReceived s =
         length (filter (λ row, strip (Victim row) = User s) df) ∧
       0 < AttacksMade s + AttacksReceived s) ∧
    (∀ u team row,
       seed_teams known_reindeer known_penguin !! u = Some team →
       row ∈ df → (strip (Attacker row) = u ∨ strip (Victim row) = u) →
       ∃ s, s ∈ table ∧ User s = u ∧ TeamLabel s = Some team) ∧
    main_table (normalize_rows df) = Some table.
Proof.
  unfold main_table. cbn zeta.
  set (seed := seed_teams known_reindeer known_penguin).
  destruct (infer_teams_run (normalize_rows df) seed)
    as (k & final & _ & _ & _ & _ & Hloop & Hrun).
  exists (build_stats (normalize_rows df) final).
  pose proof (elem_of_build_stats (normalize_rows df) final) as Hrows.
  split_and!.
  - unfold main_stats. by rewrite Hrun.
  - rewrite build_stats_users. apply NoDup_filter, NoDup_remove_dups.
  - intros s (Hpart & _ & Hm & Hr)%Hrows.
    pose proof Hpart as Hpos%participants_counts.
    apply participants_normalized in Hpart as (row & _ & Hu).
    rewrite Hm, Hr, outgoing_normalized, incoming_normalized in *.
    split_and!; try done.
    destruct Hu as [-> | ->]; apply strip_idempotent.
  - intros u team row Hseed Hin Hu.
    exists (mkStat u (outgoing (normalize_rows df) u)
                     (incoming (normalize_rows df) u) (Some team)).
    split; [|done]. apply Hrows. simpl. split_and!; try done.
    + apply participants_normalized. exists row. split; [done|].
      destruct Hu as [<-|<-]; auto.
    + exists team. split; [|done]. eapply lookup_weaken; [done|].
      by eapply infer_loop_mono.
  - rewrite normalize_rows_idempotent. unfold main_stats. by rewrite Hrun.
Qed.
End end_to_end.

(** ** The search box *)

Section search_box.
Implicit Types (s t pre post : string) (c : Ascii.ascii).
Implicit Types (data : list Trace) (trace : Trace).

Lemma js_lower_char_space c : js_isspace (js_lower_char c) = js_isspace c.
Proof. destruct c as [[] [] [] [] [] [] [] []]; reflexivity. Qed.

Lemma js_lower_char_idempotent c :
  js_lower_char (js_lower_char c) = js_lower_char c.
Proof. destruct c as [[] [] [] [] [] [] [] []]; reflexivity. Qed.

Lemma toLowerCase_append s t :
  toLowerCase (s +:+ t) = toLowerCase s +:+ toLowerCase t.
Proof.
  induction s as [|c s IH]; [done|].
  rewrite append_cons. cbn [toLowerCase]. by rewrite IH.
Qed.

Lemma toLowerCase_idempotent s : toLowerCase (toLowerCase s) = toLowerCase s.
Proof.
  induction s as [|c s IH]; [done|]. cbn [toLowerCase].
  by rewrite js_lower_char_idempotent, IH.
Qed.

Lemma toLowerCase_space s :
  all_by js_isspace (toLowerCase s) = all_by js_isspace s.
Proof.
  induction s as [|c s IH]; [done|]. cbn [toLowerCase all_by].
  by rewrite js_lower_char_space, IH.
Qed.

(** The search term that is used is empty exactly for a blank input. *)
Lemma search_term_blank s :
  trim (toLowerCase s) = "" ↔ all_by js_isspace s = true.
Proof.
  rewrite <-toLowerCase_space. unfold trim. split.
  - apply strip_by_nil_all.
  - apply strip_by_all.
Qed.

Lemma trace_markers_skip searchTerm trace :
  trace_markers searchTerm trace = None ↔
  mode trace = Some "lines" ∨ hovertext trace = None.
Proof.
  unfold trace_markers. case_decide as Hm.
  - split; [by left | done].
  - destruct (hovertext trace); split; try done; [by intros [?|?] | by right].
Qed.

(** X15. [highlightUser] does nothing without a graph; otherwise the update
    it hands to [Plotly.restyle] has one entry per trace in each of its two
    lists: undefined for a trace of mode lines or without hover text, which
    is left as it is, and for any other trace one size and one opacity per
    point of the trace. *)
Theorem X15_highlightUser_shape (data : list Trace) (searchTerm : string) :
  highlightUser None searchTerm = None ∧
  ∃ sizes opacities,
    highlightUser (Some data) searchTerm = Some (sizes, opacities) ∧
    length sizes = length data ∧ length opacities = length data ∧
    ∀ i trace, data !! i = Some trace →
      (mode trace = Some "lines" ∨ hovertext trace = None →
         sizes !! i = Some None ∧ opacities !! i = Some None) ∧
      (∀ names, mode trace ≠ Some "lines" → hovertext trace = Some names →
         ∃ ss os, sizes !! i = Some (Some ss) ∧
                  opacities !! i = Some (Some os) ∧
                  length ss = length names ∧ length os = length names).
Proof.
  split; [done|]. unfold highlightUser. cbn zeta.
  set (term := trim (toLowerCase searchTerm)).
  eexists _, _. split; [done|]. rewrite !length_fmap.
  split_and!; [done | done |].
  intros i trace Hi. rewrite !list_lookup_fmap, Hi. simpl. split.
  - intros Hskip. apply (trace_markers_skip term) in Hskip.
    by rewrite Hskip.
  - intros names Hmode Hnames. unfold trace_markers.
    rewrite decide_False, Hnames by done. simpl.
    eexists _, _. split_and!; [done | done | |]; by rewrite !length_fmap.
Qed.

(** X16. Each point of a trace that is not skipped gets one of three
    markers: size 8 and opacity 1 when the input is blank (empty or white
    space only), which resets the figure; otherwise size 20 and opacity 1
    when the lower-cased name of the point contains the lower-cased,
    trimmed input, and size 8 and opacity 0.2 when it does not. *)
Theorem X16_highlightUser_markers
    (data : list Trace) (searchTerm : string)
    (i j : nat) (trace : Trace) (names : list string) (name : string) :
  data !! i = Some trace →
  mode trace ≠ Some "lines" →
  hovertext trace = Some names →
  names !! j = Some name →
  ∃ sizes opacities ss os size opacity,
    highlightUser (Some data) searchTerm = Some (sizes, opacities) ∧
    sizes !! i = Some (Some ss) ∧ opacities !! i = Some (Some os) ∧
    ss !! j = Some size ∧ os !! j = Some opacity ∧
    (all_by js_isspace searchTerm = true →
       size = 8 ∧ opacity = opacity_full) ∧
    (all_by js_isspace searchTerm = false →
       (∃ pre post, toLowerCase name =
                    pre +:+ trim (toLowerCase searchTerm) +:+ post) →
       size = 20 ∧ opacity = opacity_full) ∧
    (all_by js_isspace searchTerm = false →
       ¬ (∃ pre post, toLowerCase name =
                      pre +:+ trim (toLowerCase searchTerm) +:+ post) →
       size = 8 ∧ opacity = opacity_dim).
Proof.
  intros Hi Hmode Hnames Hj. unfold highlightUser. cbn zeta.
  pose proof (search_term_blank searchTerm) as Hblank.
  set (term := trim (toLowerCase searchTerm)) in *.
  eexists _, _, _, _, _, _. split; [done|].
  rewrite !list_lookup_fmap, Hi. simpl. unfold trace_markers.
  rewrite decide_False, Hnames by done. simpl.
  split_and!; [done | done | | | | |].
  - by rewrite !list_lookup_fmap, Hj.
  - by rewrite !list_lookup_fmap, Hj.
  - intros Hb. apply Hblank in Hb. unfold point_marker.
    by rewrite decide_True.
  - intros Hb Hsub. unfold point_marker.
    rewrite decide_False by (intros He; apply Hblank in He; congruence).
    apply contains_spec in Hsub. by rewrite Hsub.
  - intros Hb Hsub. unfold point_marker.
    rewrite decide_False by (intros He; apply Hblank in He; congruence).
    destruct (contains term (toLowerCase name)) eqn:Hc; [|done].
    apply contains_spec in Hc. done.
Qed.

(** X17. The search ignores letter case and white space around the input:
    the update is the same for an input and for its lower-cased form, for
    an input with white space added at its ends, and for a figure whose
    point names are lower-cased. *)
Theorem X17_highlightUser_insensitive
    (gd_data : option (list Trace)) (searchTerm : string) :
  highlightUser gd_data (toLowerCase searchTerm) =
    highlightUser gd_data searchTerm ∧
  (∀ pre post,
     all_by js_isspace pre = true → all_by js_isspace post = true →
     highlightUser gd_data (pre +:+ searchTerm +:+ post) =
       highlightUser gd_data searchTerm) ∧
  highlightUser
    ((λ data : list Trace, lower_names <$> data) <$> gd_data) searchTerm =
    highlightUser gd_data searchTerm.
Proof.
  split_and!.
  - unfold highlightUser. by rewrite toLowerCase_idempotent.
  - intros pre post Hpre Hpost. unfold highlightUser.
    rewrite !toLowerCase_append. unfold trim.
    by rewrite strip_by_padded by (by rewrite toLowerCase_space).
  - destruct gd_data as [data|]; [|done]. simpl.
    set (term := trim (toLowerCase searchTerm)).
    assert (∀ trace,
      trace_markers term (lower_names trace) = trace_markers term trace)
      as Hsame.
    { intros trace. unfold trace_markers, lower_names. simpl.
      case_decide; [done|]. destruct (hovertext trace) as [names|]; [|done].
      simpl. rewrite <-!list_fmap_compose. do 2 f_equal;
        apply list_fmap_ext; intros _ h _; simpl;
        by rewrite toLowerCase_idempotent. }
    rewrite <-!list_fmap_compose. do 2 f_equal;
      apply list_fmap_ext; intros _ trace _; simpl; by rewrite Hsame.
Qed.

(** The point Winnie of the example figure, searched as [WIN]. *)
Lemma X16_witness :
  ∃ sizes opacities ss os size opacity,
    highlightUser (Some ex_figure) " WIN" = Some (sizes, opacities) ∧
    sizes !! 0 = Some (Some ss) ∧ opacities !! 0 = Some (Some os) ∧
    ss !! 0 = Some size ∧ os !! 0 = Some opacity ∧
    (all_by js_isspace " WIN" = true → size = 8 ∧ opacity = opacity_full) ∧
    (all_by js_isspace " WIN" = false →
       (∃ pre post, toLowerCase "Winnie" =
                    pre +:+ trim (toLowerCase " WIN") +:+ post) →
       size = 20 ∧ opacity = opacity_full) ∧
    (all_by js_isspace " WIN" = false →
       ¬ (∃ pre post, toLowerCase "Winnie" =
                      pre +:+ trim (toLowerCase " WIN") +:+ post) →
       size = 8 ∧ opacity = opacity_dim).
Proof.
  apply (X16_highlightUser_markers ex_figure " WIN" 0 0
           (mkTrace (Some "markers") (Some ["Winnie"; "bsims"]))
           ["Winnie"; "bsims"] "Winnie"); done.
Defined.
End search_box.
